(** * Instance and widget trackers: a shallow embedding

    The development models [InstanceTracker] (coreutils) and the signal
    wiring of [WidgetTracker] (apputils/src/widgettracker.ts) and proves
    properties of tracking, of the [current] pointer and of state
    restoration.

    Modelling conventions.
    - A tracked object is known by its identity ([Obj]); everything it
      owns ([isDisposed], what the [name] and [args] callbacks read) lives
      in the state [W] of the external collaborators.
    - A call to a collaborator (data connector, command registry) is a
      function of that state returning an [Outcome] (the settled promise)
      and the next state.  Every call is taken to settle.
    - [async] methods are run to completion: a rejected [await] leaves the
      method with [Rejected] and keeps every mutation made before it.
    - Every effect the code performs (signal emission, collaborator call,
      console warning) is appended to a chronological [log].
    - A signal's [emit] runs the connected slots synchronously.  The slots
      are a parameter of the methods: [noSlots] for a tracker used on its
      own, [widgetSlots] for the one a widget tracker owns.
    - In [restore] the [map] callback runs for every entry before any
      [catch] handler does, as in JavaScript; the handlers are then run in
      the order of the entries.
    - [Promise.all] rejects with the reason of the promise that rejected
      first in time.  When a promise settles is for the collaborators to
      decide: their state tells which of the rejections a [Promise.all]
      meets came first.
    - [WidgetTracker.add] is suspended at its [await]: what happens to
      the tracker before it resumes is a parameter of the method, and a
      step of its own in a history. *)

From stdpp Require Import gmap strings list.

Set Default Proof Using "Type".

(** ** Values shared with the collaborators *)

(** Identity of a tracked object ([===] on references). *)
Definition Obj := nat.

(** A thrown [Error] or a rejection reason. *)
Inductive Error := JSError (message : string).

(** A settled promise. *)
Inductive Outcome (A : Type) :=
| Fulfilled (value : A)
| Rejected (reason : Error).
Arguments Fulfilled {A} value.
Arguments Rejected {A} reason.

Definition isFulfilled {A} (o : Outcome A) : bool :=
  match o with Fulfilled _ => true | Rejected _ => false end.

(** The reasons of the promises that rejected, by position. *)
Fixpoint rejections {A} (promises : list (Outcome A)) : list Error :=
  match promises with
  | [] => []
  | Fulfilled _ :: rest => rejections rest
  | Rejected e :: rest => e :: rejections rest
  end.

(** The values of the promises that fulfilled, by position. *)
Fixpoint fulfilments {A} (promises : list (Outcome A)) : list A :=
  match promises with
  | [] => []
  | Fulfilled v :: rest => v :: fulfilments rest
  | Rejected _ :: rest => fulfilments rest
  end.

(** [Promise.all] over settled promises: the list of values when every
    promise fulfilled; otherwise the reason of the promise that rejected
    first in time, [earliest] being its position among the rejected ones
    (past the last of them, the first is taken). *)
Definition Promise_all {A} (earliest : nat) (promises : list (Outcome A))
    : Outcome (list A) :=
  match rejections promises with
  | [] => Fulfilled (fulfilments promises)
  | e :: es => Rejected (nth earliest (e :: es) e)
  end.

(** A promise seen by [Promise.all] when its value is not used. *)
Definition valueDropped {A} (o : Outcome A) : Outcome unit :=
  match o with
  | Fulfilled _ => Fulfilled ()
  | Rejected e => Rejected e
  end.

(** JavaScript [Set]: insertion ordered, no duplicates. *)
Module JSSet.

Definition has (s : list Obj) (obj : option Obj) : bool :=
  match obj with
  | Some o => bool_decide (o ∈ s)
  | None => false (* [null] is never stored by the tracker *)
  end.

Definition add (o : Obj) (s : list Obj) : list Obj :=
  if bool_decide (o ∈ s) then s else s ++ [o].

Definition delete (o : Obj) (s : list Obj) : list Obj :=
  filter (λ x, x ≠ o) s.

Definition clear (s : list Obj) : list Obj := [].

End JSSet.

Arguments JSSet.has : simpl never.
Arguments JSSet.add : simpl never.
Arguments JSSet.delete : simpl never.

(** Truthiness of a nullable string: [null] and [''] are falsy. *)
Definition truthy (s : option string) : bool :=
  match s with
  | Some v => negb (String.eqb v "")
  | None => false
  end.

(** ** Collaborator interfaces

    [W] is the state of everything outside the tracker; [Any] is the
    type of the untyped payloads ([any] in the source). *)

(** [IObservableDisposable.isDisposed] (an interface of the disposable
    library): a flag of the object, read from the collaborators' state. *)
Class IObservableDisposable (W : Type) := {
  isDisposed : W → Obj → bool
}.

(** [FocusTracker.currentWidget] (a class of the widgets library), read
    by the widget tracker. *)
Class FocusTracker (W : Type) := {
  focus_currentWidget : W → option Obj
}.

(** The order in which the collaborators' promises settle.  When a
    [Promise.all] meets the rejections [reasons] (listed by position),
    [earliestRejection w reasons] is the position in that list of the
    one that happened first, the collaborators being in state [w]. *)
Class SettlingOrder (W : Type) := {
  earliestRejection : W → list Error → nat
}.

Section Model.

Context {W Any : Type}.
Context `{!IObservableDisposable W, !FocusTracker W, !SettlingOrder W}.

(** A call to a collaborator. *)
Definition Call (A : Type) : Type := W → Outcome A * W.

(** The value stored per key: [{ data }], where [data] may be [undefined]. *)
Record Item := { data : option Any }.

(** What [connector.list] resolves to: parallel arrays, where a value may
    be [undefined]. *)
Record Saved := { ids : list string; values : list (option Item) }.

(** Modelled from the spec: the connector interface is declared in
    [./interfaces], which is not among the source files.  Section 6 gives
    [save(key, value)], [list(namespace)] and [remove(key)], each of which
    may fail. *)
Record IDataConnector := {
  conn_save : string → Item → Call Any;
  conn_list : string → Call Saved;
  conn_remove : string → Call Any
}.

(** The command registry (a class of the commands library):
    [execute(command, args)], which may fail. *)
Record CommandRegistry := {
  execute : string → Any → Call Any
}.

(** Modelled from the spec: [IRestorable.IOptions] is declared in
    [./interfaces], which is not among the source files; the fields are
    the ones the source reads and section 3 lists.  [when] holds the
    gating promises, already settled; a single promise is a one-element
    list.  [name] and [args] read the tracked object, hence the
    collaborators' state; a [name] may be [null]. *)
Record IOptions := {
  command : string;
  connector : IDataConnector;
  registry : CommandRegistry;
  when : option (list (Outcome Any));
  name : W → Obj → option string;
  args : W → Obj → Any
}.

(** ** Effects *)

Inductive Event :=
| ConsoleWarn (warning : string) (obj : Obj)
| EmitAdded (obj : Obj)
| EmitCurrentChanged (value : option Obj)
| EmitUpdated (obj : Obj)
| CallList (ns : string)
| CallSave (key : string) (value : Item)
| CallRemove (key : string)
| CallExecute (cmd : string) (arguments : Any)
| HookOnCurrentChanged (value : option Obj)
| EmitWidgetAdded (widget : Obj)
| EmitWidgetCurrentChanged (value : option Obj)
| EmitWidgetUpdated (widget : Obj).

(** ** State

    The tracker's private fields, the two attached properties of the
    [Private] namespace, the signal connections, the collaborators and
    the log. *)
Record Sys := {
  namespace : string;
  _current : option Obj;
  _hasRestored : bool;
  _instances : list Obj;
  _isDisposed : bool;
  _restore : option IOptions;
  _restored : bool;                    (* has [_restored.resolve()] run *)
  injectedProperty : gmap Obj bool;    (* default [false] *)
  nameProperty : gmap Obj string;      (* default [''] *)
  disposedConnected : list Obj;        (* [obj.disposed] connected to the tracker *)
  slotsConnected : bool;               (* slots on the tracker's own signals *)
  world : W;
  log : list Event
}.

Definition with_current (v : option Obj) (s : Sys) : Sys :=
  {| namespace := namespace s; _current := v; _hasRestored := _hasRestored s;
     _instances := _instances s; _isDisposed := _isDisposed s;
     _restore := _restore s; _restored := _restored s;
     injectedProperty := injectedProperty s; nameProperty := nameProperty s;
     disposedConnected := disposedConnected s;
     slotsConnected := slotsConnected s; world := world s; log := log s |}.

Definition with_hasRestored (v : bool) (s : Sys) : Sys :=
  {| namespace := namespace s; _current := _current s; _hasRestored := v;
     _instances := _instances s; _isDisposed := _isDisposed s;
     _restore := _restore s; _restored := _restored s;
     injectedProperty := injectedProperty s; nameProperty := nameProperty s;
     disposedConnected := disposedConnected s;
     slotsConnected := slotsConnected s; world := world s; log := log s |}.

Definition with_instances (v : list Obj) (s : Sys) : Sys :=
  {| namespace := namespace s; _current := _current s;
     _hasRestored := _hasRestored s;
     _instances := v; _isDisposed := _isDisposed s;
     _restore := _restore s; _restored := _restored s;
     injectedProperty := injectedProperty s; nameProperty := nameProperty s;
     disposedConnected := disposedConnected s;
     slotsConnected := slotsConnected s; world := world s; log := log s |}.

Definition with_isDisposed (v : bool) (s : Sys) : Sys :=
  {| namespace := namespace s; _current := _current s;
     _hasRestored := _hasRestored s;
     _instances := _instances s; _isDisposed := v;
     _restore := _restore s; _restored := _restored s;
     injectedProperty := injectedProperty s; nameProperty := nameProperty s;
     disposedConnected := disposedConnected s;
     slotsConnected := slotsConnected s; world := world s; log := log s |}.

Definition with_restore (v : option IOptions) (s : Sys) : Sys :=
  {| namespace := namespace s; _current := _current s;
     _hasRestored := _hasRestored s;
     _instances := _instances s; _isDisposed := _isDisposed s;
     _restore := v; _restored := _restored s;
     injectedProperty := injectedProperty s; nameProperty := nameProperty s;
     disposedConnected := disposedConnected s;
     slotsConnected := slotsConnected s; world := world s; log := log s |}.

Definition with_restored (v : bool) (s : Sys) : Sys :=
  {| namespace := namespace s; _current := _current s;
     _hasRestored := _hasRestored s;
     _instances := _instances s; _isDisposed := _isDisposed s;
     _restore := _restore s; _restored := v;
     injectedProperty := injectedProperty s; nameProperty := nameProperty s;
     disposedConnected := disposedConnected s;
     slotsConnected := slotsConnected s; world := world s; log := log s |}.

Definition with_injectedProperty (v : gmap Obj bool) (s : Sys) : Sys :=
  {| namespace := namespace s; _current := _current s;
     _hasRestored := _hasRestored s;
     _instances := _instances s; _isDisposed := _isDisposed s;
     _restore := _restore s; _restored := _restored s;
     injectedProperty := v; nameProperty := nameProperty s;
     disposedConnected := disposedConnected s;
     slotsConnected := slotsConnected s; world := world s; log := log s |}.

Definition with_nameProperty (v : gmap Obj string) (s : Sys) : Sys :=
  {| namespace := namespace s; _current := _current s;
     _hasRestored := _hasRestored s;
     _instances := _instances s; _isDisposed := _isDisposed s;
     _restore := _restore s; _restored := _restored s;
     injectedProperty := injectedProperty s; nameProperty := v;
     disposedConnected := disposedConnected s;
     slotsConnected := slotsConnected s; world := world s; log := log s |}.

Definition with_disposedConnected (v : list Obj) (s : Sys) : Sys :=
  {| namespace := namespace s; _current := _current s;
     _hasRestored := _hasRestored s;
     _instances := _instances s; _isDisposed := _isDisposed s;
     _restore := _restore s; _restored := _restored s;
     injectedProperty := injectedProperty s; nameProperty := nameProperty s;
     disposedConnected := v;
     slotsConnected := slotsConnected s; world := world s; log := log s |}.

Definition with_slotsConnected (v : bool) (s : Sys) : Sys :=
  {| namespace := namespace s; _current := _current s;
     _hasRestored := _hasRestored s;
     _instances := _instances s; _isDisposed := _isDisposed s;
     _restore := _restore s; _restored := _restored s;
     injectedProperty := injectedProperty s; nameProperty := nameProperty s;
     disposedConnected := disposedConnected s;
     slotsConnected := v; world := world s; log := log s |}.

Definition with_world (v : W) (s : Sys) : Sys :=
  {| namespace := namespace s; _current := _current s;
     _hasRestored := _hasRestored s;
     _instances := _instances s; _isDisposed := _isDisposed s;
     _restore := _restore s; _restored := _restored s;
     injectedProperty := injectedProperty s; nameProperty := nameProperty s;
     disposedConnected := disposedConnected s;
     slotsConnected := slotsConnected s; world := v; log := log s |}.

Definition with_log (v : list Event) (s : Sys) : Sys :=
  {| namespace := namespace s; _current := _current s;
     _hasRestored := _hasRestored s;
     _instances := _instances s; _isDisposed := _isDisposed s;
     _restore := _restore s; _restored := _restored s;
     injectedProperty := injectedProperty s; nameProperty := nameProperty s;
     disposedConnected := disposedConnected s;
     slotsConnected := slotsConnected s; world := world s; log := v |}.

(** ** The tracker monad

    A method body is a state transformer that ends fulfilled or rejected;
    the state reached is kept in both cases. *)
Definition M (A : Type) : Type := Sys → Outcome A * Sys.

#[export] Instance M_ret : MRet M := λ A a s, (Fulfilled a, s).

#[export] Instance M_bind : MBind M := λ A B f m s,
  match m s with
  | (Fulfilled a, s') => f a s'
  | (Rejected e, s') => (Rejected e, s')
  end.

(** [throw new Error(..)] inside an [async] method. *)
Definition throw {A} (e : Error) : M A := λ s, (Rejected e, s).

(** Read the state. *)
Definition gets {A} (f : Sys → A) : M A := λ s, (Fulfilled (f s), s).

(** A synchronous statement. *)
Definition exec (f : Sys → Sys) : M unit := λ s, (Fulfilled (), f s).

Definition logEvent (e : Event) (s : Sys) : Sys :=
  with_log (log s ++ [e]) s.

(** Issue a collaborator call: it is logged, and its outcome and the
    collaborators' next state are the callee's. *)
Definition issue {A} (e : Event) (c : Call A) (s : Sys) : Outcome A * Sys :=
  let '(o, w) := c (world s) in (o, with_world w (logEvent e s)).

(** [await c]: a rejection leaves the method. *)
Definition await {A} (e : Event) (c : Call A) : M A := issue e c.

(** [const p = c]: the call is issued and its promise kept for later. *)
Definition promise {A} (e : Event) (c : Call A) : M (Outcome A) := λ s,
  let '(o, s') := issue e c s in (Fulfilled o, s').

(** [await p] on a promise obtained earlier. *)
Definition settled {A} (p : Outcome A) : M A := λ s, (p, s).

(** [await Promise.all(promises)] *)
Definition awaitAll {A} (promises : list (Outcome A)) : M (list A) := λ s,
  (Promise_all (earliestRejection (world s) (rejections promises)) promises,
   s).

(** [void c]: the promise is dropped, whatever its outcome. *)
Definition void {A} (e : Event) (c : Call A) (s : Sys) : Sys :=
  (issue e c s).2.

(** ** Attached properties ([Private]) *)

Definition injectedProperty_get (obj : Obj) (s : Sys) : bool :=
  default false (injectedProperty s !! obj).

Definition injectedProperty_set (obj : Obj) (v : bool) (s : Sys) : Sys :=
  with_injectedProperty (<[obj := v]> (injectedProperty s)) s.

Definition nameProperty_get (obj : Obj) (s : Sys) : string :=
  default "" (nameProperty s !! obj).

Definition nameProperty_set (obj : Obj) (v : string) (s : Sys) : Sys :=
  with_nameProperty (<[obj := v]> (nameProperty s)) s.

(** ** Signals

    [emit] is recorded, then the connected slots run synchronously.
    [Slots] are the slots connected to the tracker's three signals;
    [Signal.clearData(this)] disconnects them and the tracker's
    subscriptions to [obj.disposed]. *)
Record Slots := {
  onAdded : Obj → Sys → Sys;
  onCurrentChanged : option Obj → Sys → Sys;
  onUpdated : Obj → Sys → Sys
}.

(** A tracker nobody listens to. *)
Definition noSlots : Slots :=
  {| onAdded := λ _ s, s; onCurrentChanged := λ _ s, s; onUpdated := λ _ s, s |}.

Definition emit_added (slots : Slots) (obj : Obj) (s : Sys) : Sys :=
  let s := logEvent (EmitAdded obj) s in
  if slotsConnected s then onAdded slots obj s else s.

Definition emit_currentChanged (slots : Slots) (v : option Obj) (s : Sys) : Sys :=
  let s := logEvent (EmitCurrentChanged v) s in
  if slotsConnected s then onCurrentChanged slots v s else s.

Definition emit_updated (slots : Slots) (obj : Obj) (s : Sys) : Sys :=
  let s := logEvent (EmitUpdated obj) s in
  if slotsConnected s then onUpdated slots obj s else s.

(** [obj.disposed.connect(this._onInstanceDisposed, this)]: connecting
    the same slot twice is refused by the signal library. *)
Definition disposed_connect (obj : Obj) (s : Sys) : Sys :=
  with_disposedConnected (JSSet.add obj (disposedConnected s)) s.

Definition Signal_clearData (s : Sys) : Sys :=
  with_slotsConnected false (with_disposedConnected [] s).

(** ** InstanceTracker *)

(** [new InstanceTracker({ namespace })] over collaborators in state [w]. *)
Definition new (ns : string) (w : W) : Sys :=
  {| namespace := ns; _current := None; _hasRestored := false;
     _instances := []; _isDisposed := false; _restore := None;
     _restored := false; injectedProperty := ∅; nameProperty := ∅;
     disposedConnected := []; slotsConnected := true; world := w;
     log := [] |}.

Definition has (obj : option Obj) (s : Sys) : bool :=
  JSSet.has (_instances s) obj.

Definition size (s : Sys) : nat := length (_instances s).

Definition current (s : Sys) : option Obj := _current s.

(** [set current(obj)] *)
Definition set_current (slots : Slots) (obj : option Obj) (s : Sys) : Sys :=
  if bool_decide (_current s = obj) then s
  else if has obj s then
    let s := with_current obj s in
    emit_currentChanged slots (_current s) s
  else s.

(** [`${namespace}:${objName}`] *)
Definition qualified (ns objName : string) : string := ns +:+ ":" +:+ objName.

(** [add(obj)] *)
Definition add (slots : Slots) (obj : Obj) : M unit :=
  disposed ← gets (λ s, isDisposed (world s) obj);
  (if disposed : bool then
     exec (logEvent (ConsoleWarn "A disposed object cannot be added." obj));;
     throw (JSError "A disposed object cannot be added.")
   else mret ());;
  tracked ← gets (has (Some obj));
  (if tracked : bool then
     exec (logEvent (ConsoleWarn "This object already exists in the tracker." obj));;
     throw (JSError "This object already exists in the tracker.")
   else mret ());;
  exec (λ s, with_instances (JSSet.add obj (_instances s)) s);;
  exec (disposed_connect obj);;
  injected ← gets (injectedProperty_get obj);
  if injected : bool then mret ()
  else
    r ← gets _restore;
    match r with
    | Some r =>
        objName ← gets (λ s, name r (world s) obj);
        if truthy objName then
          ns ← gets namespace;
          let nm := qualified ns (default "" objName) in
          d ← gets (λ s, args r (world s) obj);
          exec (nameProperty_set obj nm);;
          await (CallSave nm {| data := Some d |})
                (conn_save (connector r) nm {| data := Some d |});;
          mret ()
        else mret ()
    | None => mret ()
    end;;
    exec (emit_added slots obj).

(** [inject(obj)] *)
Definition inject (slots : Slots) (obj : Obj) : M unit :=
  exec (injectedProperty_set obj true);;
  add slots obj.

(** [dispose()] *)
Definition dispose (s : Sys) : Sys :=
  if _isDisposed s then s
  else
    let s := with_current None s in
    let s := with_instances (JSSet.clear (_instances s)) s in
    let s := with_isDisposed true s in
    Signal_clearData s.

(** [find(fn)]: the first match in insertion order. *)
Fixpoint find_in (fn : Obj → bool) (values : list Obj) : option Obj :=
  match values with
  | [] => None
  | value :: rest => if fn value then Some value else find_in fn rest
  end.

Definition find (fn : Obj → bool) (s : Sys) : option Obj :=
  find_in fn (_instances s).

(** [forEach(fn)] for a callback that leaves the tracker alone and
    threads a result of its own. *)
Definition forEach {A} (fn : Obj → A → A) (s : Sys) (acc : A) : A :=
  foldl (λ a obj, fn obj a) acc (_instances s).

(** [filter(fn)] *)
Definition filter_instances (fn : Obj → bool) (s : Sys) : list Obj :=
  forEach (λ obj filtered, if fn obj then filtered ++ [obj] else filtered) s [].

(** *** restore *)

(** [value && value.data] for [value = saved.values[index]]. *)
Definition payload (saved : Saved) (index : nat) : option Any :=
  mjoin (values saved !! index) ≫= data.

(** What the [map] callback returns for one entry: the promise of a
    removal, or the promise of an execution with its [catch] handler
    still to run. *)
Inductive Pending :=
| Removing (o : Outcome Any)
| Executing (id : string) (o : Outcome Any).

(** The [map] callback. *)
Definition restoreEntry (options : IOptions) (saved : Saved)
    (id : string) (index : nat) (s : Sys) : Pending * Sys :=
  match payload saved index with
  | None =>
      let '(o, s') := issue (CallRemove id) (conn_remove (connector options) id) s in
      (Removing o, s')
  | Some a =>
      let '(o, s') :=
        issue (CallExecute (command options) a)
              (execute (registry options) (command options) a) s in
      (Executing id o, s')
  end.

(** [saved.ids.map(..)]: the callback runs for every entry, in order,
    before any [catch] handler. *)
Fixpoint mapEntries (options : IOptions) (saved : Saved)
    (l : list string) (index : nat) (s : Sys) : list Pending * Sys :=
  match l with
  | [] => ([], s)
  | id :: rest =>
      let '(p, s1) := restoreEntry options saved id index s in
      let '(ps, s2) := mapEntries options saved rest (S index) s1 in
      (p :: ps, s2)
  end.

(** [.catch(() => connector.remove(id))]: a rejected execution is
    replaced by the removal of the entry. *)
Definition settleEntry (options : IOptions) (p : Pending) (s : Sys)
    : Outcome Any * Sys :=
  match p with
  | Removing o => (o, s)
  | Executing id (Fulfilled v) => (Fulfilled v, s)
  | Executing id (Rejected _) =>
      issue (CallRemove id) (conn_remove (connector options) id) s
  end.

(** The handlers run once the synchronous [map] is over; the model runs
    them in the order of the entries. *)
Fixpoint settleEntries (options : IOptions) (ps : list Pending) (s : Sys)
    : list (Outcome Any) * Sys :=
  match ps with
  | [] => ([], s)
  | p :: rest =>
      let '(o, s1) := settleEntry options p s in
      let '(os, s2) := settleEntries options rest s1 in
      (o :: os, s2)
  end.

(** The batch of per-entry promises handed to the second [Promise.all]. *)
Definition restoreBatch (options : IOptions) (saved : Saved)
    : M (list (Outcome Any)) := λ s,
  let '(ps, s1) := mapEntries options saved (ids saved) 0 s in
  let '(os, s2) := settleEntries options ps s1 in
  (Fulfilled os, s2).

(** [restore(options)].  The first [Promise.all] is over the listing
    followed by the gating promises, and only its first value, the
    listing's, is used: once it has fulfilled, the listing has. *)
Definition restore (options : IOptions) : M (list Any) :=
  hasRestored ← gets _hasRestored;
  (if hasRestored : bool
   then throw (JSError "Instance tracker has already restored")
   else mret ());;
  exec (with_hasRestored true);;
  ns ← gets namespace;
  listing ← promise (CallList ns) (conn_list (connector options) ns);
  let promises :=
    valueDropped listing :: map valueDropped (default [] (when options)) in
  exec (with_restore (Some options));;
  awaitAll promises;;
  saved ← settled listing;
  batch ← restoreBatch options saved;
  values ← awaitAll batch;
  exec (with_restored true);;
  mret values.

(** *** save *)

Definition nonEmpty (s : string) : bool := negb (String.eqb s "").

(** The key [save] computes for [obj]: [newName] in the source. *)
Definition restorationKey (r : IOptions) (obj : Obj) (s : Sys) : string :=
  let objName := name r (world s) obj in
  if truthy objName then qualified (namespace s) (default "" objName) else "".

(** [save(obj)] *)
Definition save (slots : Slots) (obj : Obj) : M unit :=
  injected ← gets (injectedProperty_get obj);
  r ← gets _restore;
  tracked ← gets (has (Some obj));
  match r with
  | None => mret ()
  | Some r =>
      if negb tracked || injected then mret ()
      else
        objName ← gets (λ s, name r (world s) obj);
        oldName ← gets (nameProperty_get obj);
        ns ← gets namespace;
        let newName :=
          if truthy objName then qualified ns (default "" objName) else "" in
        (if nonEmpty oldName && negb (String.eqb oldName newName)
         then await (CallRemove oldName) (conn_remove (connector r) oldName);;
              mret ()
         else mret ());;
        exec (nameProperty_set obj newName);;
        (if nonEmpty newName
         then d ← gets (λ s, args r (world s) obj);
              await (CallSave newName {| data := Some d |})
                    (conn_save (connector r) newName {| data := Some d |});;
              mret ()
         else mret ());;
        if negb (String.eqb oldName newName)
        then exec (emit_updated slots obj)
        else mret ()
  end.

(** *** Disposal of a tracked instance *)

(** [_onInstanceDisposed(obj)] *)
Definition _onInstanceDisposed (slots : Slots) (obj : Obj) (s : Sys) : Sys :=
  let s := with_instances (JSSet.delete obj (_instances s)) s in
  let s :=
    if bool_decide (Some obj = _current s) then
      let s := with_current None s in
      emit_currentChanged slots (_current s) s
    else s in
  if injectedProperty_get obj s then s
  else
    match _restore s with
    | None => s
    | Some r =>
        let nm := nameProperty_get obj s in
        if nonEmpty nm
        then void (CallRemove nm) (conn_remove (connector r) nm) s
        else s
    end.

(** Delivery of [obj.disposed]: the slot runs if it is connected, and
    the disposed object then drops its connections. *)
Definition instanceDisposed (slots : Slots) (obj : Obj) (s : Sys) : Sys :=
  if bool_decide (obj ∈ disposedConnected s) then
    let s := _onInstanceDisposed slots obj s in
    with_disposedConnected (JSSet.delete obj (disposedConnected s)) s
  else s.

(** ** WidgetTracker: the slots its constructor connects *)

(** [get currentWidget()] *)
Definition currentWidget (s : Sys) : option Obj := current s.

(** The tail of the [instances.currentChanged] slot: the overridable
    hook (a no-op by default), then the public signal. *)
Definition propagateCurrent (widget : option Obj) (s : Sys) : Sys :=
  let s := logEvent (HookOnCurrentChanged widget) s in
  logEvent (EmitWidgetCurrentChanged widget) s.

(** The slots on [instances.added], [instances.currentChanged] and
    [instances.updated].  The second one assigns [instances.current],
    whose setter emits [currentChanged] again and so re-enters the slot;
    [depth] bounds that nesting.  Depth 1 is enough: see
    [widgetSlots_depth]. *)
Fixpoint widgetSlots (depth : nat) : Slots :=
  {| onAdded := λ widget s, logEvent (EmitWidgetAdded widget) s;
     onCurrentChanged := λ widget s,
       match widget, focus_currentWidget (world s) with
       | None, Some focused =>
           match depth with
           | 0 => s
           | S d => set_current (widgetSlots d) (Some focused) s
           end
       | _, _ => propagateCurrent widget s
       end;
     onUpdated := λ widget s, logEvent (EmitWidgetUpdated widget) s |}.

(** The slot on [focus.currentChanged]. *)
Definition onFocusChanged (slots : Slots) (newValue : option Obj) (s : Sys) : Sys :=
  if bool_decide (newValue ≠ currentWidget s)
  then set_current slots newValue s
  else s.

(** ** Histories

    What can happen to a tracker: a call of its public interface, the
    disposal of an object, or anything at all among the collaborators. *)
Inductive Op :=
| OpAdd (obj : Obj)
| OpInject (obj : Obj)
| OpSetCurrent (obj : option Obj)
| OpRestore (options : IOptions)
| OpSave (obj : Obj)
| OpDispose
| OpInstanceDisposed (obj : Obj)
| OpCollaborators (f : W → W).

Definition step (slots : Slots) (s : Sys) (op : Op) : Sys :=
  match op with
  | OpAdd obj => (add slots obj s).2
  | OpInject obj => (inject slots obj s).2
  | OpSetCurrent obj => set_current slots obj s
  | OpRestore options => (restore options s).2
  | OpSave obj => (save slots obj s).2
  | OpDispose => dispose s
  | OpInstanceDisposed obj => instanceDisposed slots obj s
  | OpCollaborators f => with_world (f (world s)) s
  end.

Definition run (slots : Slots) (ops : list Op) (s : Sys) : Sys :=
  foldl (step slots) s ops.

(** ** Reading the log *)

(** The events recorded between state [s] and a later state [s']. *)
Definition since (s s' : Sys) : list Event :=
  drop (length (log s)) (log s').

Definition isCurrentChanged (e : Event) : bool :=
  match e with EmitCurrentChanged _ => true | _ => false end.

Definition isUpdated (e : Event) : bool :=
  match e with EmitUpdated _ => true | _ => false end.

Definition isAdded (e : Event) : bool :=
  match e with EmitAdded _ => true | _ => false end.

Definition isWidgetCurrentChanged (e : Event) : bool :=
  match e with EmitWidgetCurrentChanged _ => true | _ => false end.

(** Calls to the connector or the registry. *)
Definition isCall (e : Event) : bool :=
  match e with
  | CallList _ | CallSave _ _ | CallRemove _ | CallExecute _ _ => true
  | _ => false
  end.

(** ** Vocabulary of the statements *)

(** [current] is [null] or a tracked object. *)
Definition current_ok (s : Sys) : Prop :=
  _current s = None ∨ has (_current s) s = true.

(** The slots keep a property of the state. *)
Definition SlotsPreserve (P : Sys → Prop) (slots : Slots) : Prop :=
  (∀ obj s, P s → P (onAdded slots obj s)) ∧
  (∀ v s, P s → P (onCurrentChanged slots v s)) ∧
  (∀ obj s, P s → P (onUpdated slots obj s)).

(** A method keeps a property of the state, however it ends. *)
Definition preserves {A} (P : Sys → Prop) (m : M A) : Prop :=
  ∀ s, P s → P (m s).2.

(** A property of the state that every write the tracker makes keeps:
    writes to the collaborators, the log, the attached properties, the
    signal connections and the restoration fields keep it
    unconditionally; the writes to [_instances] and [_current] keep it as
    the methods make them. *)
Class TrackerInvariant (P : Sys → Prop) := {
  inv_world : ∀ w s, P s → P (with_world w s);
  inv_log : ∀ l s, P s → P (with_log l s);
  inv_injectedProperty : ∀ m s, P s → P (with_injectedProperty m s);
  inv_nameProperty : ∀ m s, P s → P (with_nameProperty m s);
  inv_disposedConnected : ∀ l s, P s → P (with_disposedConnected l s);
  inv_slotsConnected : ∀ b s, P s → P (with_slotsConnected b s);
  inv_hasRestored : ∀ s, P s → P (with_hasRestored true s);
  inv_restore : ∀ o s, P s → P (with_restore (Some o) s);
  inv_restored : ∀ s, P s → P (with_restored true s);
  inv_track : ∀ obj s, P s → P (with_instances (JSSet.add obj (_instances s)) s);
  inv_untrack : ∀ obj s, P s →
    Some obj ≠ _current s →
    P (with_instances (JSSet.delete obj (_instances s)) s);
  inv_untrack_current : ∀ obj s, P s →
    Some obj = _current s →
    P (with_current None (with_instances (JSSet.delete obj (_instances s)) s));
  inv_current : ∀ obj s, P s → has obj s = true → P (with_current obj s);
  inv_dispose : ∀ s, P s →
    P (with_isDisposed true
         (with_instances (JSSet.clear (_instances s)) (with_current None s)))
}.

(** The call [restore] issues first for the entry [id] at [index]. *)
Definition entryCall (options : IOptions) (saved : Saved)
    (id : string) (index : nat) : Event :=
  match payload saved index with
  | None => CallRemove id
  | Some a => CallExecute (command options) a
  end.

Fixpoint entryCalls (options : IOptions) (saved : Saved)
    (l : list string) (index : nat) : list Event :=
  match l with
  | [] => []
  | id :: rest =>
      entryCall options saved id index :: entryCalls options saved rest (S index)
  end.

(** The removals issued by the [catch] handlers of rejected executions. *)
Definition catchRemoval (p : Pending) : list Event :=
  match p with
  | Executing id (Rejected _) => [CallRemove id]
  | _ => []
  end.

Definition catchRemovals (ps : list Pending) : list Event :=
  flat_map catchRemoval ps.

(** *** The calls of a batch, seen from the collaborators

    What a call answers depends on the state of the collaborators it is
    issued in.  The definitions below follow that state through the
    calls of a batch, each call being issued in the state the previous
    one left. *)

(** The callee of the call [restore] issues first for the entry [id] at
    [index]. *)
Definition entryCallee (options : IOptions) (saved : Saved)
    (id : string) (index : nat) : Call Any :=
  match payload saved index with
  | None => conn_remove (connector options) id
  | Some a => execute (registry options) (command options) a
  end.

(** The promise that call returned, given what it answered. *)
Definition pendingOf (saved : Saved) (id : string) (index : nat)
    (answer : Outcome Any) : Pending :=
  match payload saved index with
  | None => Removing answer
  | Some _ => Executing id answer
  end.

(** The first calls of the entries [l], issued from the state [w] on:
    what each answered, and the state the last one left. *)
Fixpoint firstCalls (options : IOptions) (saved : Saved)
    (l : list string) (index : nat) (w : W) : list Pending * W :=
  match l with
  | [] => ([], w)
  | id :: rest =>
      let '(answer, w1) := entryCallee options saved id index w in
      let '(ps, w2) := firstCalls options saved rest (S index) w1 in
      (pendingOf saved id index answer :: ps, w2)
  end.

(** The removals the [catch] handlers ask for, issued from the state [w]
    on: what each entry's promise settles to, and the state the last
    removal left. *)
Fixpoint catchCalls (options : IOptions) (ps : list Pending) (w : W)
    : list (Outcome Any) * W :=
  match ps with
  | [] => ([], w)
  | Removing o :: rest =>
      let '(os, w') := catchCalls options rest w in (o :: os, w')
  | Executing id (Fulfilled v) :: rest =>
      let '(os, w') := catchCalls options rest w in (Fulfilled v :: os, w')
  | Executing id (Rejected _) :: rest =>
      let '(o, w1) := conn_remove (connector options) id w in
      let '(os, w2) := catchCalls options rest w1 in
      (o :: os, w2)
  end.

(** What the removals asked of the connector in a batch answered, by
    entry: the removal of an entry without payload (answered among the
    first calls) and the removal asked by the [catch] handler of a
    rejected execution (issued from the state [w] on). *)
Fixpoint removalAnswers (options : IOptions) (ps : list Pending) (w : W)
    : list (Outcome Any) :=
  match ps with
  | [] => []
  | Removing o :: rest => o :: removalAnswers options rest w
  | Executing id (Fulfilled _) :: rest => removalAnswers options rest w
  | Executing id (Rejected _) :: rest =>
      let '(o, w1) := conn_remove (connector options) id w in
      o :: removalAnswers options rest w1
  end.

(** [s'] differs from [s] at most in the collaborators and the log. *)
Definition sameTracker (s s' : Sys) : Prop :=
  s' = with_world (world s') (with_log (log s') s).

(** What is never undone: the facts of [s] that still hold in a later
    state [s'].  The namespace is fixed; a disposed tracker stays
    disposed; once [restore] has been called it stays called and the
    configuration stays the one recorded; [restored] stays resolved; an
    injected object stays injected. *)
Definition neverUndone (s s' : Sys) : Prop :=
  namespace s' = namespace s ∧
  (_isDisposed s = true → _isDisposed s' = true) ∧
  (_hasRestored s = true →
     _hasRestored s' = true ∧ _restore s' = _restore s) ∧
  (_restored s = true → _restored s' = true) ∧
  (∀ obj, injectedProperty_get obj s = true →
     injectedProperty_get obj s' = true).

End Model.

Arguments Item : clear implicits.
Arguments Saved : clear implicits.
Arguments Event : clear implicits.
Arguments IDataConnector : clear implicits.
Arguments CommandRegistry : clear implicits.
Arguments IOptions : clear implicits.
Arguments Sys : clear implicits.
Arguments Slots : clear implicits.
Arguments Op : clear implicits.
Arguments Pending : clear implicits.
Arguments has : simpl never.

(** ** WidgetTracker: the class

    The widget tracker owns an instance tracker, wired to [widgetSlots],
    and a focus tracker, which lives among the collaborators.  Besides
    [currentWidget], the focus tracker is asked to register a widget and
    to dispose of itself. *)

(** [FocusTracker.add(widget)] and [FocusTracker.dispose()] (the widgets
    library).  Registration answers the focus tracker's next state and,
    when it emitted [currentChanged] (the widget already held focus), the
    new value that signal carried.  These calls are not logged. *)
Class FocusTrackerOps (W : Type) := {
  focus_add : Obj → W → W * option (option Obj);
  focus_dispose : W → W
}.

Module WidgetTracker.

Section Model.

Context {W Any : Type}.
Context `{!IObservableDisposable W, !FocusTracker W, !SettlingOrder W}.
Context `{!FocusTrackerOps W}.

(** The slots the constructor connects (depth 1 is exact, see
    [widgetSlots_depth]). *)
Definition slots : Slots W Any := widgetSlots 1.

(** The widget tracker's own field, and the instance tracker it owns. *)
Record State := {
  _isDisposed : bool;
  _instanceTracker : Sys W Any
}.

Definition with_instanceTracker (v : Sys W Any) (t : State) : State :=
  {| _isDisposed := _isDisposed t; _instanceTracker := v |}.

(** [new WidgetTracker({ namespace })] *)
Definition new (ns : string) (w : W) : State :=
  {| _isDisposed := false; _instanceTracker := new ns w |}.

(** [get currentWidget()] *)
Definition currentWidget (t : State) : option Obj :=
  currentWidget (_instanceTracker t).

(** [get size()] *)
Definition size (t : State) : nat := size (_instanceTracker t).

(** [has(widget)] *)
Definition has (widget : option Obj) (t : State) : bool :=
  has widget (_instanceTracker t).

(** Delivery of [focus.currentChanged]: the slot is connected with the
    widget tracker as receiver, until the tracker's [dispose] clears it. *)
Definition focusChanged (newValue : option Obj) (t : State) : State :=
  if _isDisposed t then t
  else with_instanceTracker
         (onFocusChanged slots newValue (_instanceTracker t)) t.

(** [this._focusTracker.add(widget)], with the signal it may emit. *)
Definition focusTracker_add (widget : Obj) (t : State) : State :=
  let '(w, changed) := focus_add widget (world (_instanceTracker t)) in
  let t := with_instanceTracker (with_world w (_instanceTracker t)) t in
  match changed with
  | Some newValue => focusChanged newValue t
  | None => t
  end.

(** [add(widget)] up to its [await]: the widget is registered with the
    focus tracker and added to the instance tracker.  The outcome is the
    one of [this._instanceTracker.add(widget)]. *)
Definition add_start (widget : Obj) (t : State) : Outcome unit * State :=
  let t := focusTracker_add widget t in
  let '(o, s) := add slots widget (_instanceTracker t) in
  (o, with_instanceTracker s t).

(** [add(widget)] once it resumes: [this._instanceTracker.current = widget]. *)
Definition add_resume (widget : Obj) (t : State) : State :=
  with_instanceTracker
    (set_current slots (Some widget) (_instanceTracker t)) t.

(** [add(widget)].  The method is suspended at its [await], also when
    the instance tracker's [add] has finished already: [meanwhile] is
    what happens to the tracker before the method resumes.  A rejection
    of the instance tracker's [add] leaves the method at the [await]. *)
Definition add (widget : Obj) (meanwhile : State → State) (t : State)
    : Outcome unit * State :=
  let '(o, t1) := add_start widget t in
  let t2 := meanwhile t1 in
  match o with
  | Fulfilled _ => (Fulfilled (), add_resume widget t2)
  | Rejected e => (Rejected e, t2)
  end.

(** [inject(widget)] *)
Definition inject (widget : Obj) (t : State) : Outcome unit * State :=
  let '(o, s) := inject slots widget (_instanceTracker t) in
  (o, with_instanceTracker s t).

(** [save(widget)] *)
Definition save (widget : Obj) (t : State) : Outcome unit * State :=
  let '(o, s) := save slots widget (_instanceTracker t) in
  (o, with_instanceTracker s t).

(** [restore(options)] *)
Definition restore (options : IOptions W Any) (t : State)
    : Outcome (list Any) * State :=
  let '(o, s) := restore options (_instanceTracker t) in
  (o, with_instanceTracker s t).

(** [dispose()] *)
Definition dispose (t : State) : State :=
  if _isDisposed t then t
  else
    let s := dispose (_instanceTracker t) in
    let s := with_world (focus_dispose (world s)) s in
    {| _isDisposed := true; _instanceTracker := s |}.

(** What can happen to a widget tracker: a call of its public interface,
    a change of focus reported by the focus tracker, the disposal of a
    widget reaching the instance tracker, or anything at all among the
    collaborators.  A call of [add] is two steps, the call up to its
    [await] and its resumption, with whatever happens in between.  The
    focus tracker reacts to a disposal on its own; its reaction is a
    change among the collaborators and, possibly, a report of a change
    of focus. *)
Inductive Op :=
| OpAdd (widget : Obj)
| OpAddResumed (widget : Obj)
| OpInject (widget : Obj)
| OpRestore (options : IOptions W Any)
| OpSave (widget : Obj)
| OpDispose
| OpFocusChanged (newValue : option Obj)
| OpWidgetDisposed (widget : Obj)
| OpCollaborators (f : W → W).

Definition step (t : State) (op : Op) : State :=
  match op with
  | OpAdd widget => (add_start widget t).2
  | OpAddResumed widget => add_resume widget t
  | OpInject widget => (inject widget t).2
  | OpRestore options => (restore options t).2
  | OpSave widget => (save widget t).2
  | OpDispose => dispose t
  | OpFocusChanged newValue => focusChanged newValue t
  | OpWidgetDisposed widget =>
      with_instanceTracker
        (instanceDisposed slots widget (_instanceTracker t)) t
  | OpCollaborators f =>
      with_instanceTracker
        (with_world (f (world (_instanceTracker t))) (_instanceTracker t)) t
  end.

Definition run (ops : list Op) (t : State) : State := foldl step t ops.

End Model.

End WidgetTracker.

Arguments WidgetTracker.State : clear implicits.
Arguments WidgetTracker.Op : clear implicits.

(** ** A concrete host

    An in-memory stand-in for the collaborators, used to run the model on
    examples: objects that can be disposed and renamed, a focus pointer
    and a key-value store.  The connector rejects writes and removals on
    chosen keys, the command rejects chosen arguments.  Payloads are
    strings. *)
Record Host := {
  disposedObjs : list Obj;
  focused : option Obj;
  names : list (Obj * string);
  store : list (string * option (Item string));
  rejectsFirst : nat
}.

#[export] Instance Host_disposable : IObservableDisposable Host :=
  {| isDisposed := λ w obj, bool_decide (obj ∈ disposedObjs w) |}.

#[export] Instance Host_focus : FocusTracker Host :=
  {| focus_currentWidget := focused |}.

(** Of the promises a [Promise.all] of the host waits for that reject,
    the one at position [rejectsFirst] among them rejects first. *)
#[export] Instance Host_settling : SettlingOrder Host :=
  {| earliestRejection := λ w reasons, rejectsFirst w |}.

Definition host_with_store (v : list (string * option (Item string)))
    (w : Host) : Host :=
  {| disposedObjs := disposedObjs w; focused := focused w; names := names w;
     store := v; rejectsFirst := rejectsFirst w |}.

Definition host_with_names (v : list (Obj * string)) (w : Host) : Host :=
  {| disposedObjs := disposedObjs w; focused := focused w; names := v;
     store := store w; rejectsFirst := rejectsFirst w |}.

Definition host_with_focused (v : option Obj) (w : Host) : Host :=
  {| disposedObjs := disposedObjs w; focused := v; names := names w;
     store := store w; rejectsFirst := rejectsFirst w |}.

Fixpoint assoc {K V} `{EqDecision K} (k : K) (l : list (K * V)) : option V :=
  match l with
  | [] => None
  | (k', v) :: rest => if decide (k = k') then Some v else assoc k rest
  end.

Definition store_put (key : string) (v : option (Item string))
    (l : list (string * option (Item string)))
    : list (string * option (Item string)) :=
  filter (λ kv, kv.1 ≠ key) l ++ [(key, v)].

Definition store_drop (key : string)
    (l : list (string * option (Item string)))
    : list (string * option (Item string)) :=
  filter (λ kv, kv.1 ≠ key) l.

(** A connector over [store] that rejects [save] on the keys of
    [noSave] and [remove] on the keys of [noRemove]. *)
Definition memoryConnector (noSave noRemove : list string)
    : IDataConnector Host string :=
  {| conn_save := λ key v w,
       if bool_decide (key ∈ noSave)
       then (Rejected (JSError "save failed"), w)
       else (Fulfilled "saved",
             host_with_store (store_put key (Some v) (store w)) w);
     conn_list := λ ns w,
       let found :=
         filter (λ kv, String.prefix (ns +:+ ":") kv.1 = true) (store w) in
       (Fulfilled {| ids := found.*1; values := found.*2 |}, w);
     conn_remove := λ key w,
       if bool_decide (key ∈ noRemove)
       then (Rejected (JSError "remove failed"), w)
       else (Fulfilled "removed",
             host_with_store (store_drop key (store w)) w) |}.

(** A registry whose command rejects the arguments of [failing]. *)
Definition scriptedRegistry (failing : list string)
    : CommandRegistry Host string :=
  {| execute := λ cmd a w,
       if bool_decide (a ∈ failing)
       then (Rejected (JSError "command failed"), w)
       else (Fulfilled ("opened " +:+ a), w) |}.

Definition hostOptions (noSave noRemove failing : list string)
    : IOptions Host string :=
  {| command := "docmanager:open";
     connector := memoryConnector noSave noRemove;
     registry := scriptedRegistry failing;
     when := None;
     name := λ w obj, assoc obj (names w);
     args := λ w obj, default "" (assoc obj (names w)) |}.

(** *** Example states *)

(** Object 9 is disposed; objects 1 and 2 are documents; three entries
    are persisted under the namespace, the second without payload. *)
Definition demo_host : Host :=
  {| disposedObjs := [9]; focused := None;
     names := [(1, "a.ipynb"); (2, "b.ipynb")];
     store := [("nb:x", Some {| data := Some "x" |});
               ("nb:y", None);
               ("nb:z", Some {| data := Some "z" |})];
     rejectsFirst := 0 |}.

Definition demo_new : Sys Host string := new "nb" demo_host.

(** Every connector call fulfils; the command rejects the arguments of
    the first entry. *)
Definition demo_options : IOptions Host string := hostOptions [] [] ["x"].

(** The same, with a connector that cannot remove the second entry. *)
Definition demo_stuck_options : IOptions Host string :=
  hostOptions [] ["nb:y"] ["x"].

(** Restored, then object 1 added. *)
Definition demo_tracking : Sys Host string :=
  run noSlots [OpRestore demo_options; OpAdd 1] demo_new.

(** The same with a connector that cannot remove the entry of object 1,
    after object 1 was renamed. *)
Definition demo_renamed_stuck : Sys Host string :=
  run noSlots
    [OpRestore (hostOptions [] ["nb:a.ipynb"] []); OpAdd 1;
     OpCollaborators (host_with_names [(1, "c.ipynb")])]
    demo_new.

(** The same renaming with a connector that works. *)
Definition demo_renamed : Sys Host string :=
  run noSlots [OpCollaborators (host_with_names [(1, "c.ipynb")])]
    demo_tracking.

(** Object 1 is tracked, named and current. *)
Definition demo_current : Sys Host string :=
  run noSlots [OpSetCurrent (Some 1)] demo_tracking.

(** A configuration whose connector cannot write the entry of object 2. *)
Definition demo_readonly : Sys Host string :=
  run noSlots [OpRestore (hostOptions ["nb:b.ipynb"] [] [])] demo_new.

(** A widget tracker's instance tracker: widget 1 was injected, then took
    focus and so became current. *)
Definition demo_focused : Sys Host string :=
  onFocusChanged (widgetSlots 1) (Some 1)
    (run (widgetSlots 1)
       [OpInject 1; OpCollaborators (host_with_focused (Some 1))]
       demo_new).

(** Widgets 1 and 2 are tracked; widget 1 holds focus; widget 2, added
    last, is current. *)
Definition demo_two_widgets : Sys Host string :=
  run (widgetSlots 1)
    [OpAdd 1; OpAdd 2; OpCollaborators (host_with_focused (Some 1));
     OpSetCurrent (Some 2)]
    demo_new.

(** Widget 1 is tracked and focused while the underlying [current] is
    [null]. *)
Definition demo_focus_only : Sys Host string :=
  run (widgetSlots 1)
    [OpAdd 1; OpCollaborators (host_with_focused (Some 1))]
    demo_new.

(** What the connector lists for the namespace in [demo_host]. *)
Definition demo_saved : Saved string :=
  {| ids := ["nb:x"; "nb:y"; "nb:z"];
     values := [Some {| data := Some "x" |}; None;
                Some {| data := Some "z" |}] |}.

(** The options of [demo_options] behind a gate of two promises, the
    second of which rejects. *)
Definition demo_gated_options : IOptions Host string :=
  {| command := command demo_options;
     connector := connector demo_options;
     registry := registry demo_options;
     when := Some [Fulfilled "ready"; Rejected (JSError "gate closed")];
     name := name demo_options;
     args := args demo_options |}.

(** The same gate, with a connector whose listing rejects as well. *)
Definition demo_offline_options : IOptions Host string :=
  {| command := command demo_options;
     connector :=
       {| conn_save := conn_save (connector demo_options);
          conn_list := λ ns w, (Rejected (JSError "list failed"), w);
          conn_remove := conn_remove (connector demo_options) |};
     registry := registry demo_options;
     when := when demo_gated_options;
     name := name demo_options;
     args := args demo_options |}.

(** A host whose connector answers after the gate has settled. *)
Definition demo_late_host : Host :=
  {| disposedObjs := disposedObjs demo_host; focused := focused demo_host;
     names := names demo_host; store := store demo_host;
     rejectsFirst := 1 |}.

(** Object 1 was injected, then a restore configuration was set. *)
Definition demo_injected : Sys Host string :=
  run noSlots [OpInject 1; OpRestore demo_options] demo_new.

(** The host's focus tracker registers a widget without giving it
    focus, and forgets the focused widget when it is disposed. *)
#[export] Instance Host_focus_ops : FocusTrackerOps Host :=
  {| focus_add := λ obj w, (w, None);
     focus_dispose := host_with_focused None |}.

(** A host whose focus tracker finds that a widget it registers already
    holds focus. *)
Record EagerHost := { eager : Host }.

#[export] Instance EagerHost_disposable : IObservableDisposable EagerHost :=
  {| isDisposed := λ w obj, isDisposed (eager w) obj |}.

#[export] Instance EagerHost_focus : FocusTracker EagerHost :=
  {| focus_currentWidget := λ w, focused (eager w) |}.

#[export] Instance EagerHost_settling : SettlingOrder EagerHost :=
  {| earliestRejection := λ w reasons, earliestRejection (eager w) reasons |}.

#[export] Instance EagerHost_focus_ops : FocusTrackerOps EagerHost :=
  {| focus_add := λ obj w,
       ({| eager := host_with_focused (Some obj) (eager w) |}, Some (Some obj));
     focus_dispose := λ w, {| eager := host_with_focused None (eager w) |} |}.

(** A fresh widget tracker over that host. *)
Definition demo_widget_new : WidgetTracker.State EagerHost string :=
  WidgetTracker.new "nb" {| eager := demo_host |}.

(** The same once widget 1 was added, nothing else happening until
    [add] resumed: it is current. *)
Definition demo_widget_tracker : WidgetTracker.State EagerHost string :=
  (WidgetTracker.add 1 id demo_widget_new).2.

(** The focus tracker of that host lets go of the focused widget. *)
Definition eager_focus_lost (w : EagerHost) : EagerHost :=
  {| eager := host_with_focused None (eager w) |}.

(** Widget 1 is injected, then added: the focus tracker registers it and
    reports it as focused, so that it becomes current, and the instance
    tracker refuses it as already tracked.  Its [disposed] signal is
    connected to the instance tracker ahead of the focus tracker. *)
Definition demo_widget_injected : WidgetTracker.State EagerHost string :=
  WidgetTracker.run [WidgetTracker.OpInject 1; WidgetTracker.OpAdd 1]
    demo_widget_new.

(** Widget 1 is disposed while [add] is suspended: the focus tracker
    loses it, and its disposal reaches the instance tracker. *)
Definition demo_widget_disposed_meanwhile
    (t : WidgetTracker.State EagerHost string)
    : WidgetTracker.State EagerHost string :=
  WidgetTracker.run
    [WidgetTracker.OpCollaborators
       (λ w, {| eager :=
                  {| disposedObjs := 1 :: disposedObjs (eager w);
                     focused := None;
                     names := names (eager w);
                     store := store (eager w);
                     rejectsFirst := rejectsFirst (eager w) |} |});
     WidgetTracker.OpWidgetDisposed 1]
    t.

(** * Properties *)

Section Properties.

Context {W Any : Type}.
Context `{!IObservableDisposable W, !FocusTracker W, !SettlingOrder W}.

Implicit Types (s : Sys W Any) (obj : Obj) (slots : Slots W Any).
Implicit Types (options r : IOptions W Any) (saved : Saved Any).

(** Unfold the monadic plumbing of a method applied to a state. *)
Ltac run_method :=
  unfold mbind, M_bind, mret, M_ret, gets, exec, throw, await, settled, promise;
  simpl.

(** ** JavaScript sets *)

Lemma JSSet_has_Some (l : list Obj) (o : Obj) :
  JSSet.has l (Some o) = true ↔ o ∈ l.
Proof. unfold JSSet.has. apply bool_decide_eq_true. Qed.

Lemma JSSet_add_elem (l : list Obj) (o x : Obj) :
  x ∈ JSSet.add o l ↔ x = o ∨ x ∈ l.
Proof.
  unfold JSSet.add. case_bool_decide as Hin.
  - split; [by right|]. intros [->|]; done.
  - rewrite elem_of_app, (list_elem_of_singleton x o). tauto.
Qed.

Lemma JSSet_delete_elem (l : list Obj) (o x : Obj) :
  x ∈ JSSet.delete o l ↔ x ≠ o ∧ x ∈ l.
Proof. unfold JSSet.delete. by rewrite list_elem_of_filter. Qed.

(** ** add: usage errors (C5) *)

(** C5. [add] rejects when the object is already disposed or already
    tracked, and in both cases the tracked set is the one before the
    call: same elements in the same order, hence same membership and
    same size. *)
Theorem add_rejects_disposed_or_tracked slots obj s :
  isDisposed (world s) obj = true ∨ has (Some obj) s = true →
  let r := add slots obj s in
  (∃ e, r.1 = Rejected e) ∧
  _instances r.2 = _instances s ∧
  size r.2 = size s ∧
  (∀ o, has o r.2 = has o s).
Proof.
  intros Hbad. unfold add, size. run_method.
  destruct (isDisposed (world s) obj) eqn:Hd; simpl.
  { repeat split; eauto. }
  destruct Hbad as [Hbad|Hbad]; [done|].
  rewrite Hbad. simpl. repeat split; eauto.
Qed.

(** ** Emission without listeners *)

Lemma emit_currentChanged_noSlots v s :
  emit_currentChanged noSlots v s = logEvent (EmitCurrentChanged v) s.
Proof. unfold emit_currentChanged. simpl. by destruct (slotsConnected s). Qed.

Lemma emit_added_noSlots obj s :
  emit_added noSlots obj s = logEvent (EmitAdded obj) s.
Proof. unfold emit_added. simpl. by destruct (slotsConnected s). Qed.

Lemma emit_updated_noSlots obj s :
  emit_updated noSlots obj s = logEvent (EmitUpdated obj) s.
Proof. unfold emit_updated. simpl. by destruct (slotsConnected s). Qed.

Lemma since_app s s' (l : list (Event Any)) :
  log s' = log s ++ l → since s s' = l.
Proof. unfold since. intros ->. by rewrite drop_app_length. Qed.

(** Bring [log s' = log s ++ ..] goals and [since] into normal form. *)
Ltac log_norm :=
  rewrite ?emit_currentChanged_noSlots, ?emit_added_noSlots,
    ?emit_updated_noSlots;
  unfold since, void, issue, logEvent; simpl;
  rewrite <- ?(assoc_L (++)); simpl;
  rewrite ?drop_app_length, ?drop_all.

(** ** The setter of [current] (C7) *)

(** C7. Setting [current] to something that is not in the tracked set
    ([null] included) changes nothing and emits nothing; so does setting
    it to the value it already holds; in every other case [current]
    becomes the new value and exactly one [currentChanged] is emitted,
    carrying that value. *)
Theorem set_current_cases (obj : option Obj) s :
  let s' := set_current noSlots obj s in
  (has obj s = false → s' = s) ∧
  (_current s = obj → s' = s) ∧
  (has obj s = true → _current s ≠ obj →
     _current s' = obj ∧
     log s' = log s ++ [EmitCurrentChanged obj] ∧
     _instances s' = _instances s).
Proof.
  unfold set_current. split; [|split].
  - intros Hnot. rewrite Hnot. by case_bool_decide.
  - intros Heq. by rewrite bool_decide_eq_true_2.
  - intros Hin Hne. rewrite bool_decide_eq_false_2, Hin by done.
    by log_norm.
Qed.

(** ** Disposal of a tracked instance (C8) *)

Lemma JSSet_has_delete_same (l : list Obj) obj :
  JSSet.has (JSSet.delete obj l) (Some obj) = false.
Proof.
  apply bool_decide_eq_false. rewrite JSSet_delete_elem. by intros [? _].
Qed.

Lemma JSSet_has_delete_other (l : list Obj) obj (o : Obj) :
  o ≠ obj → JSSet.has (JSSet.delete obj l) (Some o) = JSSet.has l (Some o).
Proof.
  intros Hne. apply bool_decide_ext. rewrite JSSet_delete_elem. tauto.
Qed.

Lemma nonEmpty_true (x : string) : nonEmpty x = true ↔ x ≠ "".
Proof.
  unfold nonEmpty.
  destruct (String.eqb_spec x "") as [->|Hne]; simpl; split; intros; done.
Qed.

Lemma nonEmpty_false (x : string) : nonEmpty x = false ↔ x = "".
Proof.
  unfold nonEmpty.
  destruct (String.eqb_spec x "") as [->|Hne]; simpl; split; intros; done.
Qed.

(** The handler, with every test read off the state it starts from. *)
Lemma onInstanceDisposed_unfold obj s :
  _onInstanceDisposed noSlots obj s =
  let s1 := with_instances (JSSet.delete obj (_instances s)) s in
  let s2 :=
    if bool_decide (_current s = Some obj)
    then logEvent (EmitCurrentChanged None) (with_current None s1)
    else s1 in
  if injectedProperty_get obj s then s2
  else
    match _restore s with
    | None => s2
    | Some r =>
        let nm := nameProperty_get obj s in
        if nonEmpty nm
        then void (CallRemove nm) (conn_remove (connector r) nm) s2
        else s2
    end.
Proof.
  unfold _onInstanceDisposed. rewrite emit_currentChanged_noSlots. simpl.
  destruct (decide (_current s = Some obj)) as [Hc|Hc].
  - rewrite (bool_decide_eq_true_2 (Some obj = _)),
      (bool_decide_eq_true_2 (_ = Some obj)) by done.
    reflexivity.
  - rewrite (bool_decide_eq_false_2 (Some obj = _)),
      (bool_decide_eq_false_2 (_ = Some obj)) by done.
    reflexivity.
Qed.

(** C8. When the disposal of [obj] reaches the tracker, [obj] leaves the
    tracked set and nothing else does.  If it was [current], [current]
    becomes [null] and exactly one [currentChanged] is emitted, with
    [null]; otherwise [current] stays and none is emitted.  For an
    injected object no connector call is made.  Otherwise, when a restore
    configuration is set and a name was recorded for [obj], exactly one
    call is made, [connector.remove] of that name, and the handler goes
    on whatever it answers; in the remaining cases no call is made. *)
Theorem onInstanceDisposed_spec obj s :
  let s' := _onInstanceDisposed noSlots obj s in
  let nm := nameProperty_get obj s in
  (has (Some obj) s' = false ∧
   ∀ o, o ≠ obj → has (Some o) s' = has (Some o) s) ∧
  (_current s = Some obj →
     _current s' = None ∧
     filter isCurrentChanged (since s s') = [EmitCurrentChanged None]) ∧
  (_current s ≠ Some obj →
     _current s' = _current s ∧ filter isCurrentChanged (since s s') = []) ∧
  (injectedProperty_get obj s = true →
     filter isCall (since s s') = [] ∧ world s' = world s) ∧
  (injectedProperty_get obj s = false →
     ∀ r, _restore s = Some r → nm ≠ "" →
     filter isCall (since s s') = [CallRemove nm] ∧
     world s' = (conn_remove (connector r) nm (world s)).2) ∧
  (injectedProperty_get obj s = false →
     _restore s = None ∨ nm = "" →
     filter isCall (since s s') = [] ∧ world s' = world s).
Proof.
  intros s' nm. subst s'. rewrite onInstanceDisposed_unfold.
  cbv zeta. fold nm.
  destruct (decide (_current s = Some obj)) as [Hcur|Hcur];
    [rewrite (bool_decide_eq_true_2 _ Hcur)
    |rewrite (bool_decide_eq_false_2 _ Hcur)].
  all: destruct (injectedProperty_get obj s) eqn:Hinj.
  all: destruct (_restore s) as [r|] eqn:Hr.
  all: destruct (nonEmpty nm) eqn:Hnm.
  all: try apply nonEmpty_true in Hnm; try apply nonEmpty_false in Hnm.
  all: cbv zeta; unfold void, issue.
  all: try destruct (conn_remove (connector r) nm (world s)) as [o w] eqn:Hcall.
  all: unfold has; simpl; rewrite ?Hcall; simpl.
  all: (split; [split; [apply JSSet_has_delete_same
                       |intros; by apply JSSet_has_delete_other]|]).
  all: repeat match goal with
             | |- _ ∧ _ => split
             | |- _ → _ => intro
             | |- ∀ _, _ => intro
             end.
  all: simplify_eq; try done.
  all: try (destruct_or!; simplify_eq; done).
  all: try rewrite Hcall.
  all: try (by log_norm).
Qed.

(** ** Queries *)

Lemma find_in_elem (l : list Obj) obj :
  obj ∈ l → find_in (λ o, bool_decide (o = obj)) l = Some obj.
Proof.
  induction l as [|x l IH]; intros Hin; simpl.
  - by apply elem_of_nil in Hin.
  - case_bool_decide as Hx; [by subst|].
    apply IH. apply elem_of_cons in Hin. by destruct Hin.
Qed.

Lemma forEach_filter_acc (fn : Obj → bool) (l acc : list Obj) :
  foldl (λ a o, if fn o then a ++ [o] else a) acc l =
  acc ++ List.filter fn l.
Proof.
  revert acc. induction l as [|x l IH]; intros acc; simpl.
  - by rewrite app_nil_r.
  - rewrite IH. destruct (fn x); [|done]. by rewrite <- (assoc_L (++)).
Qed.

(** [filter] returns the tracked objects that satisfy the predicate, in
    insertion order. *)
Lemma filter_instances_spec (fn : Obj → bool) s :
  filter_instances fn s = List.filter fn (_instances s).
Proof. unfold filter_instances, forEach. by rewrite forEach_filter_acc. Qed.

(** ** add is not atomic (C10) *)

(** C10. For an object that is neither disposed, tracked nor injected,
    with a restore configuration whose [name] gives a non-empty name: if
    [connector.save] rejects, [add] rejects with the same reason, yet the
    object is in the tracked set ([has], [find] and [filter] see it), its
    [disposed] signal is connected, its name tag is recorded, and the
    only effect logged is the call to [save]: [added] is not emitted. *)
Theorem add_rejected_save_keeps_instance obj s r (objName : string)
    (e : Error) (w' : W) :
  isDisposed (world s) obj = false →
  has (Some obj) s = false →
  injectedProperty_get obj s = false →
  _restore s = Some r →
  name r (world s) obj = Some objName →
  objName ≠ "" →
  let nm := qualified (namespace s) objName in
  let item := {| data := Some (args r (world s) obj) |} in
  conn_save (connector r) nm item (world s) = (Rejected e, w') →
  let res := add noSlots obj s in
  res.1 = Rejected e ∧
  has (Some obj) res.2 = true ∧
  find (λ o, bool_decide (o = obj)) res.2 = Some obj ∧
  obj ∈ filter_instances (λ _, true) res.2 ∧
  obj ∈ disposedConnected res.2 ∧
  nameProperty_get obj res.2 = nm ∧
  since s res.2 = [CallSave nm item] ∧
  filter isAdded (since s res.2) = [].
Proof.
  intros Hd Hhas Hinj Hr Hname Hne nm item Hsave res.
  assert (Hres : res =
    (Rejected e,
     with_world w' (logEvent (CallSave nm item)
       (nameProperty_set obj nm
          (disposed_connect obj
             (with_instances (JSSet.add obj (_instances s)) s)))))).
  { assert (Ht : truthy (Some objName) = true).
    { apply (proj2 (nonEmpty_true objName)), Hne. }
    subst res. unfold add. run_method.
    unfold injectedProperty_get in *.
    repeat (rewrite ?Hd, ?Hhas, ?Hinj, ?Hr, ?Hname, ?Ht; simpl).
    unfold issue. simpl. fold nm item. by rewrite Hsave. }
  rewrite Hres. simpl.
  assert (Hin : obj ∈ JSSet.add obj (_instances s)).
  { apply JSSet_add_elem. by left. }
  repeat split.
  - unfold has. simpl. by apply JSSet_has_Some.
  - unfold find. simpl. by apply find_in_elem.
  - rewrite filter_instances_spec. simpl.
    apply list_elem_of_In, filter_In. split; [|done].
    by apply list_elem_of_In.
  - apply JSSet_add_elem. by left.
  - unfold nameProperty_get. simpl. by rewrite lookup_insert_eq.
  - by log_norm.
  - by log_norm.
Qed.

(** ** save (C4) *)

(** One call of [save] on a tracked, non-injected object with a restore
    configuration: the four ways it can go, and what it never touches. *)
Lemma save_cases obj s r :
  _restore s = Some r →
  has (Some obj) s = true →
  injectedProperty_get obj s = false →
  let c := connector r in
  let oldName := nameProperty_get obj s in
  let newName := restorationKey r obj s in
  let renamed := nonEmpty oldName && negb (String.eqb oldName newName) in
  let removal := conn_remove c oldName (world s) in
  let w1 := if renamed then removal.2 else world s in
  let item := {| data := Some (args r w1 obj) |} in
  let write := conn_save c newName item w1 in
  let res := save noSlots obj s in
  ((renamed = true → isFulfilled removal.1 = true) →
   (nonEmpty newName = true → isFulfilled write.1 = true) →
   res.1 = Fulfilled () ∧
   nameProperty_get obj res.2 = newName ∧
   since s res.2 =
     (if renamed then [CallRemove oldName] else []) ++
     (if nonEmpty newName then [CallSave newName item] else []) ++
     (if String.eqb oldName newName then [] else [EmitUpdated obj])) ∧
  (oldName = newName → filter isUpdated (since s res.2) = []) ∧
  (∀ e, renamed = true → removal.1 = Rejected e →
     res.1 = Rejected e ∧
     nameProperty_get obj res.2 = oldName ∧
     since s res.2 = [CallRemove oldName]) ∧
  (∀ e, (renamed = true → isFulfilled removal.1 = true) →
     nonEmpty newName = true → write.1 = Rejected e →
     res.1 = Rejected e ∧
     nameProperty_get obj res.2 = newName ∧
     filter isUpdated (since s res.2) = []) ∧
  (_restore res.2 = Some r ∧ has (Some obj) res.2 = true ∧
   injectedProperty_get obj res.2 = false ∧ namespace res.2 = namespace s).
Proof.
  intros Hr Hhas Hinj c oldName newName renamed removal w1 item write res.
  assert (Hres : res = save noSlots obj s) by done. clearbody res.
  unfold save in Hres.
  unfold mbind, M_bind, mret, M_ret, gets, exec, throw, await in Hres.
  simpl in Hres. rewrite Hr, Hhas, Hinj in Hres. simpl in Hres.
  fold (restorationKey r obj s) in Hres. fold oldName newName in Hres.
  fold renamed in Hres. fold c in Hres.
  unfold issue in Hres. simpl in Hres.
  subst item write w1 removal.
  destruct renamed eqn:Hren; simpl in *.
  all: try destruct (conn_remove c oldName (world s)) as [[v1|e1] w1] eqn:Hrm.
  all: simpl in *.
  all: destruct (nonEmpty newName) eqn:Hnew; simpl in *.
  all: try destruct (conn_save c newName _ _) as [[v2|e2] w2] eqn:Hwr.
  all: simpl in *.
  all: destruct (String.eqb oldName newName) eqn:Heq; simpl in *.
  all: try rewrite emit_updated_noSlots in Hres.
  all: subst res; simpl.
  all: repeat match goal with
             | |- _ ∧ _ => split
             | |- _ → _ => intro
             | |- ∀ _, _ => intro
             end.
  all: try (rewrite andb_false_r in Hren; discriminate).
  all: repeat match goal with
             | H : true = true → _ |- _ => specialize (H eq_refl)
             end.
  all: simplify_eq; try done.
  all: try (apply String.eqb_neq in Heq; done).
  all: try (by log_norm).
  all: try (unfold nameProperty_get, nameProperty_set; simpl;
            by rewrite lookup_insert_eq).
Qed.

(** C4, as the code has it.  [save] changes nothing and calls nothing
    when no restore configuration is set, when the object is not tracked
    or when it is injected.  Otherwise let [oldName] be the recorded name
    and [newName] the recomputed one.
    - When the calls [save] issues fulfil, the effects are, in this order:
      the removal of [oldName] if it is non-empty and differs from
      [newName]; the write of the current arguments under [newName] if it
      is non-empty; [updated] if the two names differ.  The recorded name
      becomes [newName], empty or not.
    - When [oldName = newName], no [updated] is emitted, whatever the
      connector answers.
    - When the removal rejects, [save] rejects with the same reason, the
      recorded name stays [oldName], nothing is written and no [updated]
      is emitted.
    - When the write rejects, [save] rejects with the same reason, the
      recorded name is [newName] and no [updated] is emitted.
    - After a call whose connector calls fulfilled, a second call that
      computes the same name emits no [updated], whatever happened among
      the collaborators in between. *)
Theorem save_spec obj s :
  (_restore s = None ∨ has (Some obj) s = false ∨
   injectedProperty_get obj s = true →
   save noSlots obj s = (Fulfilled (), s)) ∧
  (∀ r, _restore s = Some r →
     has (Some obj) s = true →
     injectedProperty_get obj s = false →
     let c := connector r in
     let oldName := nameProperty_get obj s in
     let newName := restorationKey r obj s in
     let renamed := nonEmpty oldName && negb (String.eqb oldName newName) in
     let removal := conn_remove c oldName (world s) in
     let w1 := if renamed then removal.2 else world s in
     let item := {| data := Some (args r w1 obj) |} in
     let write := conn_save c newName item w1 in
     let res := save noSlots obj s in
     ((renamed = true → isFulfilled removal.1 = true) →
      (nonEmpty newName = true → isFulfilled write.1 = true) →
      res.1 = Fulfilled () ∧
      nameProperty_get obj res.2 = newName ∧
      since s res.2 =
        (if renamed then [CallRemove oldName] else []) ++
        (if nonEmpty newName then [CallSave newName item] else []) ++
        (if String.eqb oldName newName then [] else [EmitUpdated obj])) ∧
     (oldName = newName → filter isUpdated (since s res.2) = []) ∧
     (∀ e, renamed = true → removal.1 = Rejected e →
        res.1 = Rejected e ∧
        nameProperty_get obj res.2 = oldName ∧
        since s res.2 = [CallRemove oldName]) ∧
     (∀ e, (renamed = true → isFulfilled removal.1 = true) →
        nonEmpty newName = true → write.1 = Rejected e →
        res.1 = Rejected e ∧
        nameProperty_get obj res.2 = newName ∧
        filter isUpdated (since s res.2) = []) ∧
     ((renamed = true → isFulfilled removal.1 = true) →
      (nonEmpty newName = true → isFulfilled write.1 = true) →
      ∀ f : W → W,
        let s2 := with_world (f (world res.2)) res.2 in
        restorationKey r obj s2 = newName →
        filter isUpdated (since s2 (save noSlots obj s2).2) = [])).
Proof.
  split.
  - intros Hno. unfold save. run_method.
    destruct (_restore s) as [r|]; [|done].
    destruct Hno as [?|[Hno|Hno]]; [done|rewrite Hno..]; simpl; [done|].
    by rewrite orb_true_r.
  - intros r Hr Hhas Hinj.
    pose proof (save_cases obj s r Hr Hhas Hinj) as Hcases.
    cbv zeta in *.
    destruct Hcases as (Hok&Hsame&Hrm&Hwr&Hr'&Hhas'&Hinj'&Hns).
    repeat split; try done; try (by apply Hok); try (by eapply Hrm);
      try (by eapply Hwr).
    intros Hf1 Hf2 f Hkey.
    destruct (Hok Hf1 Hf2) as (_&Htag&_).
    set (s2 := with_world _ _) in *.
    pose proof (save_cases obj s2 r Hr' Hhas' Hinj') as (_&Hsame2&_).
    apply Hsame2. by rewrite Hkey.
Qed.

(** ** restore: the batch *)

Lemma sameTracker_refl s : sameTracker s s.
Proof. unfold sameTracker. by destruct s. Qed.

Lemma sameTracker_trans s1 s2 s3 :
  sameTracker s1 s2 → sameTracker s2 s3 → sameTracker s1 s3.
Proof. unfold sameTracker. intros H12 H23. rewrite H23, H12. done. Qed.

Lemma issue_sameTracker {A} (e : Event Any) (c : Call A) s :
  sameTracker s (issue e c s).2 ∧
  log (issue e c s).2 = log s ++ [e] ∧
  (issue e c s).1 = (c (world s)).1.
Proof.
  unfold issue, sameTracker. destruct (c (world s)) as [o w]. simpl.
  by destruct s.
Qed.

Lemma restoreEntry_spec options saved id index s :
  let r := restoreEntry options saved id index s in
  sameTracker s r.2 ∧
  log r.2 = log s ++ [entryCall options saved id index] ∧
  match payload saved index with
  | None => r.1 = Removing (conn_remove (connector options) id (world s)).1
  | Some a =>
      r.1 = Executing id
              (execute (registry options) (command options) a (world s)).1
  end.
Proof.
  unfold restoreEntry, entryCall.
  destruct (payload saved index) as [a|]; simpl.
  - pose proof (issue_sameTracker (CallExecute (command options) a)
      (execute (registry options) (command options) a) s) as (?&?&?).
    destruct (issue _ _ s) as [o s']. simpl in *. by subst.
  - pose proof (issue_sameTracker (CallRemove id)
      (conn_remove (connector options) id) s) as (?&?&?).
    destruct (issue _ _ s) as [o s']. simpl in *. by subst.
Qed.

(** The synchronous [map]: one call per entry, in order, whatever the
    calls answer; the tracker itself is left alone. *)
Lemma mapEntries_spec options saved (l : list string) index s :
  let r := mapEntries options saved l index s in
  sameTracker s r.2 ∧
  log r.2 = log s ++ entryCalls options saved l index ∧
  length r.1 = length l ∧
  ∀ k id, l !! k = Some id →
    ∃ p, r.1 !! k = Some p ∧
      match payload saved (index + k) with
      | None => ∃ w, p = Removing (conn_remove (connector options) id w).1
      | Some a =>
          ∃ w, p = Executing id
                     (execute (registry options) (command options) a w).1
      end.
Proof.
  revert index s. induction l as [|id l IH]; intros index s; simpl.
  - split; [apply sameTracker_refl|]. split; [by rewrite app_nil_r|].
    split; [done|]. intros k id' Hk. by rewrite lookup_nil in Hk.
  - pose proof (restoreEntry_spec options saved id index s) as (Hs1&Hl1&Hp1).
    destruct (restoreEntry options saved id index s) as [p s1]. simpl in *.
    specialize (IH (S index) s1). simpl in IH.
    destruct (mapEntries options saved l (S index) s1) as [ps s2]. simpl in *.
    destruct IH as (Hs2&Hl2&Hlen&Hps).
    split; [by eapply sameTracker_trans|].
    split; [by rewrite Hl2, Hl1, <- (assoc_L (++))|].
    split; [by rewrite Hlen|].
    intros [|k] id' Hk; simpl in *.
    + simplify_eq. exists p. split; [done|]. rewrite Nat.add_0_r.
      destruct (payload saved index); eauto.
    + destruct (Hps k id' Hk) as (p'&Hp'&Hm). exists p'. split; [done|].
      by replace (index + S k) with (S index + k) by lia.
Qed.

(** The [catch] handlers: one removal per rejected execution. *)
Lemma settleEntries_spec options (ps : list (Pending Any)) s :
  let r := settleEntries options ps s in
  sameTracker s r.2 ∧
  log r.2 = log s ++ catchRemovals ps ∧
  length r.1 = length ps.
Proof.
  revert s. induction ps as [|p ps IH]; intros s; simpl.
  - split; [apply sameTracker_refl|]. split; [by rewrite app_nil_r|done].
  - assert (Hp : sameTracker s (settleEntry options p s).2 ∧
      log (settleEntry options p s).2 = log s ++ catchRemoval p).
    { destruct p as [o|id [v|e]]; simpl.
      - split; [apply sameTracker_refl|by rewrite app_nil_r].
      - split; [apply sameTracker_refl|by rewrite app_nil_r].
      - pose proof (issue_sameTracker (CallRemove id)
          (conn_remove (connector options) id) s) as (?&?&Ho).
        by split. }
    destruct Hp as (Hs1&Hl1).
    destruct (settleEntry options p s) as [o s1]. simpl in *.
    specialize (IH s1). simpl in IH.
    destruct (settleEntries options ps s1) as [os s2]. simpl in *.
    destruct IH as (Hs2&Hl2&Hlen).
    split; [by eapply sameTracker_trans|].
    split; [by rewrite Hl2, Hl1, <- (assoc_L (++))|by rewrite Hlen].
Qed.

Lemma entryCalls_elem options saved (l : list string) index k id :
  l !! k = Some id →
  entryCall options saved id (index + k) ∈ entryCalls options saved l index.
Proof.
  revert index k. induction l as [|x l IH]; intros index [|k] Hk;
    simpl in *; try done.
  - simplify_eq. rewrite Nat.add_0_r. apply list_elem_of_here.
  - apply list_elem_of_further.
    replace (index + S k) with (S index + k) by lia. by apply IH.
Qed.




(** *** Promise.all *)

Lemma rejections_elem {A} (promises : list (Outcome A)) (e : Error) :
  e ∈ rejections promises ↔ Rejected e ∈ promises.
Proof.
  induction promises as [|[v|e'] promises IH]; simpl.
  - split; by intros ?%elem_of_nil.
  - rewrite IH, elem_of_cons. split; [by right|]. by intros [?|?].
  - rewrite !elem_of_cons, IH. split; intros [?|?]; simplify_eq; auto.
Qed.

Lemma rejections_none {A} (promises : list (Outcome A)) :
  rejections promises = [] ↔ forallb isFulfilled promises = true.
Proof.
  induction promises as [|[v|e] promises IH]; simpl; [done|done|].
  split; intros; discriminate.
Qed.

Lemma rejections_some {A} (promises : list (Outcome A)) :
  rejections promises ≠ [] ↔ forallb isFulfilled promises = false.
Proof.
  rewrite rejections_none. by destruct (forallb isFulfilled promises).
Qed.

Lemma rejections_valueDropped {A} (promises : list (Outcome A)) :
  rejections (map valueDropped promises) = rejections promises.
Proof.
  induction promises as [|[v|e] promises IH]; simpl; [done|done|].
  by rewrite IH.
Qed.

Lemma fulfilments_length {A} (promises : list (Outcome A)) :
  rejections promises = [] → length (fulfilments promises) = length promises.
Proof.
  induction promises as [|[v|e] promises IH]; simpl; [done| |done].
  intros Hnone. by rewrite IH.
Qed.

(** [Promise.all] fulfils exactly when no promise rejected, with one
    value per promise; otherwise it rejects with the reason of one of
    the promises that rejected. *)
Lemma Promise_all_fulfils {A} (earliest : nat) (promises : list (Outcome A)) :
  rejections promises = [] →
  Promise_all earliest promises = Fulfilled (fulfilments promises).
Proof. intros Hnone. unfold Promise_all. by rewrite Hnone. Qed.

Lemma Promise_all_rejects {A} (earliest : nat) (promises : list (Outcome A)) :
  rejections promises ≠ [] →
  ∃ e, Promise_all earliest promises = Rejected e ∧ Rejected e ∈ promises.
Proof.
  intros Hsome. unfold Promise_all.
  pose proof (rejections_elem promises) as Helem.
  destruct (rejections promises) as [|e es]; [done|].
  eexists. split; [done|]. apply Helem.
  destruct (nth_in_or_default earliest (e :: es) e) as [Hin|Hd].
  - by apply list_elem_of_In.
  - rewrite Hd. apply list_elem_of_here.
Qed.

(** *** The batch, call by call *)

Lemma restoreEntry_exact options saved id index s :
  restoreEntry options saved id index s =
  let answered := entryCallee options saved id index (world s) in
  (pendingOf saved id index answered.1,
   with_world answered.2 (logEvent (entryCall options saved id index) s)).
Proof.
  unfold restoreEntry, entryCallee, pendingOf, entryCall, issue.
  destruct (payload saved index) as [a|]; simpl.
  - by destruct (execute _ _ _ _).
  - by destruct (conn_remove _ _ _).
Qed.

(** The [map] over the entries is the series of their first calls. *)
Lemma mapEntries_exact options saved (l : list string) index s :
  mapEntries options saved l index s =
  let first := firstCalls options saved l index (world s) in
  (first.1,
   with_world first.2
     (with_log (log s ++ entryCalls options saved l index) s)).
Proof.
  revert index s. induction l as [|id l IH]; intros index s; simpl.
  - rewrite app_nil_r. by destruct s.
  - rewrite restoreEntry_exact. cbv zeta.
    destruct (entryCallee options saved id index (world s)) as [o w1].
    simpl. rewrite IH. cbv zeta. simpl.
    destruct (firstCalls options saved l (S index) w1) as [ps w2]. simpl.
    by rewrite <- (assoc_L (++)).
Qed.

(** The [catch] handlers ask for their removals one after the other. *)
Lemma settleEntries_exact options (ps : list (Pending Any)) s :
  settleEntries options ps s =
  let settled := catchCalls options ps (world s) in
  (settled.1,
   with_world settled.2 (with_log (log s ++ catchRemovals ps) s)).
Proof.
  revert s. induction ps as [|p ps IH]; intros s; simpl.
  - rewrite app_nil_r. by destruct s.
  - destruct p as [o|id [v|e]]; simpl.
    + rewrite IH. cbv zeta.
      by destruct (catchCalls options ps (world s)) as [os w'].
    + rewrite IH. cbv zeta.
      by destruct (catchCalls options ps (world s)) as [os w'].
    + unfold issue. destruct (conn_remove _ _ _) as [o w1]. simpl.
      rewrite IH. cbv zeta. simpl.
      destruct (catchCalls options ps w1) as [os w2]. simpl.
      by rewrite <- (assoc_L (++)).
Qed.

Lemma firstCalls_length options saved (l : list string) index (w : W) :
  length (firstCalls options saved l index w).1 = length l.
Proof.
  revert index w. induction l as [|id l IH]; intros index w; simpl; [done|].
  destruct (entryCallee _ _ _ _ _) as [o w1].
  specialize (IH (S index) w1).
  destruct (firstCalls options saved l (S index) w1) as [ps w2]. simpl in *.
  by rewrite IH.
Qed.

(** The promise of an entry holds what its call answered in the state
    the calls of the entries before it left. *)
Lemma firstCalls_lookup options saved (l : list string) index (w : W) k id :
  l !! k = Some id →
  (firstCalls options saved l index w).1 !! k =
  Some (pendingOf saved id (index + k)
          (entryCallee options saved id (index + k)
             (firstCalls options saved (take k l) index w).2).1).
Proof.
  revert index w k. induction l as [|x l IH]; intros index w [|k] Hk;
    simpl in *; try done.
  - simplify_eq. rewrite Nat.add_0_r.
    destruct (entryCallee options saved id index w) as [o w1]. simpl.
    by destruct (firstCalls options saved l (S index) w1).
  - destruct (entryCallee options saved x index w) as [o w1].
    specialize (IH (S index) w1 k Hk).
    destruct (firstCalls options saved l (S index) w1) as [ps w2].
    destruct (firstCalls options saved (take k l) (S index) w1) as [ps' w2'].
    simpl in *. by replace (index + S k) with (S (index + k)) by lia.
Qed.

Lemma catchCalls_length options (ps : list (Pending Any)) (w : W) :
  length (catchCalls options ps w).1 = length ps.
Proof.
  revert w. induction ps as [|[o|id [v|e]] ps IH]; intros w; simpl; [done|..].
  - specialize (IH w). destruct (catchCalls options ps w). simpl in *.
    by rewrite IH.
  - specialize (IH w). destruct (catchCalls options ps w). simpl in *.
    by rewrite IH.
  - destruct (conn_remove _ _ _) as [o w1]. specialize (IH w1).
    destruct (catchCalls options ps w1). simpl in *. by rewrite IH.
Qed.

(** The promises of a batch that reject are its removals that reject:
    a rejected execution is replaced by its removal. *)
Lemma catchCalls_rejections options (ps : list (Pending Any)) (w : W) :
  rejections (catchCalls options ps w).1 =
  rejections (removalAnswers options ps w).
Proof.
  revert w. induction ps as [|[o|id [v|e]] ps IH]; intros w; simpl; [done|..].
  - specialize (IH w). destruct (catchCalls options ps w). simpl in *.
    destruct o; [done|]. by rewrite IH.
  - specialize (IH w). by destruct (catchCalls options ps w).
  - destruct (conn_remove _ _ _) as [o w1]. specialize (IH w1).
    destruct (catchCalls options ps w1). simpl in *.
    destruct o; [done|]. by rewrite IH.
Qed.

(** *** The body of restore *)

(** [restore] once the listing and the gate have fulfilled. *)
Lemma restore_unfold options s saved (w1 : W) :
  _hasRestored s = false →
  conn_list (connector options) (namespace s) (world s) = (Fulfilled saved, w1) →
  forallb isFulfilled (default [] (when options)) = true →
  restore options s =
  let first := firstCalls options saved (ids saved) 0 w1 in
  let settled := catchCalls options first.1 first.2 in
  let s3 :=
    with_world settled.2
      (with_log
         (log s ++ CallList (namespace s) ::
            entryCalls options saved (ids saved) 0 ++ catchRemovals first.1)
         (with_restore (Some options) (with_hasRestored true s))) in
  match
    Promise_all (earliestRejection settled.2 (rejections settled.1))
      settled.1
  with
  | Fulfilled values => (Fulfilled values, with_restored true s3)
  | Rejected e => (Rejected e, s3)
  end.
Proof.
  intros Hfirst Hlist Hgate. unfold restore, restoreBatch, awaitAll.
  run_method. rewrite Hfirst. simpl. unfold issue. simpl. rewrite Hlist.
  simpl. rewrite Promise_all_fulfils
    by (simpl; rewrite rejections_valueDropped; by apply rejections_none).
  rewrite mapEntries_exact. cbv zeta. simpl.
  destruct (firstCalls options saved (ids saved) 0 w1) as [ps w2]. simpl.
  rewrite settleEntries_exact. cbv zeta. simpl.
  destruct (catchCalls options ps w2) as [os w3]. simpl.
  rewrite <- !(assoc_L (++)). simpl.
  by destruct (Promise_all _ os).
Qed.

(** A first call of [restore], however it ends: it counts itself,
    records its options, issues the listing and then only calls; it
    resolves [restored] only when it fulfils. *)
Lemma restore_first options s :
  _hasRestored s = false →
  ∃ (calls : list (Event Any)) (w : W) (resolved : bool),
    (restore options s).2 =
      with_restored resolved
        (with_world w
           (with_log (log s ++ CallList (namespace s) :: calls)
              (with_restore (Some options) (with_hasRestored true s)))) ∧
    (resolved = _restored s ∨ resolved = true) ∧
    (∀ e, (restore options s).1 = Rejected e → resolved = _restored s).
Proof.
  intros Hfirst.
  assert (Hstop : ∀ (w : W) (s' : Sys W Any),
    s' = with_restore (Some options)
           (with_world w
              (logEvent (CallList (namespace s)) (with_hasRestored true s))) →
    s' = with_restored (_restored s)
           (with_world w
              (with_log (log s ++ CallList (namespace s) :: [])
                 (with_restore (Some options) (with_hasRestored true s))))).
  { intros w s' ->. by destruct s. }
  unfold restore, restoreBatch, awaitAll. run_method. rewrite Hfirst. simpl.
  unfold issue. simpl.
  destruct (conn_list (connector options) (namespace s) (world s))
    as [listing w1]. simpl.
  destruct (Promise_all _ (valueDropped listing :: _)) as [u|e]; simpl.
  2: { exists [], w1, (_restored s). split; [by apply Hstop|]. by split; [left|]. }
  destruct listing as [saved|e]; simpl.
  2: { exists [], w1, (_restored s). split; [by apply Hstop|]. by split; [left|]. }
  rewrite mapEntries_exact. cbv zeta. simpl.
  destruct (firstCalls options saved (ids saved) 0 w1) as [ps w2]. simpl.
  rewrite settleEntries_exact. cbv zeta. simpl.
  destruct (catchCalls options ps w2) as [os w3]. simpl.
  rewrite <- !(assoc_L (++)). simpl.
  destruct (Promise_all _ os) as [values|e]; simpl.
  - exists (entryCalls options saved (ids saved) 0 ++ catchRemovals ps), w3,
      true. split; [done|]. by split; [right|].
  - exists (entryCalls options saved (ids saved) 0 ++ catchRemovals ps), w3,
      (_restored s). split; [by destruct s|]. by split; [left|].
Qed.

(** How a batch ends.  Once the listing and the gate have fulfilled,
    [restore] fulfils, with one value per entry, exactly when every
    removal asked of the connector in the batch fulfilled, and it then
    resolves [restored]; otherwise it rejects with the reason of one of
    those removals and leaves [restored] as it was.  What the command
    executions answered plays no part. *)
Lemma restore_settles options s saved (w1 : W) :
  _hasRestored s = false →
  conn_list (connector options) (namespace s) (world s) = (Fulfilled saved, w1) →
  forallb isFulfilled (default [] (when options)) = true →
  let res := restore options s in
  let first := firstCalls options saved (ids saved) 0 w1 in
  let removals := removalAnswers options first.1 first.2 in
  log res.2 =
    log s ++ CallList (namespace s) ::
      entryCalls options saved (ids saved) 0 ++ catchRemovals first.1 ∧
  (forallb isFulfilled removals = true →
     (∃ values, res.1 = Fulfilled values ∧
                length values = length (ids saved)) ∧
     _restored res.2 = true) ∧
  (forallb isFulfilled removals = false →
     (∃ e, res.1 = Rejected e ∧ Rejected e ∈ removals) ∧
     _restored res.2 = _restored s).
Proof.
  intros Hfirst Hlist Hgate res first removals. subst res.
  rewrite (restore_unfold _ _ _ _ Hfirst Hlist Hgate). cbv zeta.
  fold first. fold removals.
  pose proof (catchCalls_rejections options first.1 first.2) as Hrej.
  pose proof (catchCalls_length options first.1 first.2) as Hlen.
  pose proof (firstCalls_length options saved (ids saved) 0 w1) as Hlen1.
  fold first in Hlen1. fold removals in Hrej. rewrite Hlen1 in Hlen.
  destruct (catchCalls options first.1 first.2) as [os w3]. simpl in *.
  destruct (forallb isFulfilled removals) eqn:Hall.
  - apply rejections_none in Hall. rewrite <- Hrej in Hall.
    rewrite (Promise_all_fulfils _ _ Hall). simpl.
    split; [done|]. split; [|done]. intros _. split; [|done].
    eexists. split; [done|]. by rewrite fulfilments_length.
  - apply rejections_some in Hall. rewrite <- Hrej in Hall.
    destruct (Promise_all_rejects
                (earliestRejection w3 (rejections os)) os Hall)
      as (e&He&Hin).
    rewrite He. simpl. split; [done|]. split; [done|]. intros _.
    split; [|done]. exists e. split; [done|].
    apply rejections_elem. rewrite <- Hrej. by apply rejections_elem.
Qed.

(** ** restore: what happens to each entry (C3) *)


(** ** Invariants: what every method keeps *)

Section Invariant.

Context (P : Sys W Any → Prop) {HP : TrackerInvariant P}.
Context (slots : Slots W Any) (Hslots : SlotsPreserve P slots).

Lemma preserves_ret {A} (a : A) : preserves P (mret a).
Proof using Type. by intros s. Qed.

Lemma preserves_gets {A} (f : Sys W Any → A) : preserves P (gets f).
Proof using Type. by intros s. Qed.

Lemma preserves_throw {A} (e : Error) : preserves P (throw (A:=A) e).
Proof using Type. by intros s. Qed.

Lemma preserves_settled {A} (o : Outcome A) : preserves P (settled o).
Proof using Type. by intros s. Qed.

Lemma preserves_awaitAll {A} (promises : list (Outcome A)) :
  preserves P (awaitAll promises).
Proof using Type. by intros s. Qed.

Lemma preserves_exec (f : Sys W Any → Sys W Any) :
  (∀ s, P s → P (f s)) → preserves P (exec f).
Proof using Type. intros Hf s Hs. by apply Hf. Qed.

Lemma preserves_bind {A B} (m : M A) (k : A → M B) :
  preserves P m → (∀ a, preserves P (k a)) → preserves P (m ≫= k).
Proof using Type.
  intros Hm Hk s Hs. unfold mbind, M_bind. specialize (Hm s Hs).
  destruct (m s) as [[a|e] s']; simpl in *; [by apply Hk|done].
Qed.

Lemma preserves_sameTracker s s' : sameTracker s s' → P s → P s'.
Proof using HP.
  unfold sameTracker. intros -> Hs. by apply inv_world, inv_log.
Qed.

Lemma preserves_logEvent (e : Event Any) s : P s → P (logEvent e s).
Proof using HP. apply inv_log. Qed.

Lemma preserves_issue {A} (e : Event Any) (c : Call A) s :
  P s → P (issue e c s).2.
Proof using HP.
  apply preserves_sameTracker, issue_sameTracker.
Qed.

Lemma preserves_await {A} (e : Event Any) (c : Call A) :
  preserves P (await e c).
Proof using HP. intros s. apply preserves_issue. Qed.

Lemma preserves_promise {A} (e : Event Any) (c : Call A) :
  preserves P (promise e c).
Proof using HP.
  intros s Hs. unfold promise.
  pose proof (preserves_issue e c s Hs). by destruct (issue e c s).
Qed.

Lemma preserves_emit_added obj s : P s → P (emit_added slots obj s).
Proof using HP Hslots.
  intros Hs. unfold emit_added. simpl.
  destruct (slotsConnected s); [apply Hslots|]; by apply preserves_logEvent.
Qed.

Lemma preserves_emit_currentChanged v s :
  P s → P (emit_currentChanged slots v s).
Proof using HP Hslots.
  intros Hs. unfold emit_currentChanged. simpl.
  destruct (slotsConnected s); [apply Hslots|]; by apply preserves_logEvent.
Qed.

Lemma preserves_emit_updated obj s : P s → P (emit_updated slots obj s).
Proof using HP Hslots.
  intros Hs. unfold emit_updated. simpl.
  destruct (slotsConnected s); [apply Hslots|]; by apply preserves_logEvent.
Qed.

Lemma add_preserves obj : preserves P (add slots obj).
Proof using HP Hslots.
  unfold add.
  apply preserves_bind; [apply preserves_gets|intros disposed].
  apply preserves_bind.
  { destruct disposed; [|apply preserves_ret].
    apply preserves_bind; [|intros; apply preserves_throw].
    apply preserves_exec, preserves_logEvent. }
  intros _. apply preserves_bind; [apply preserves_gets|intros tracked].
  apply preserves_bind.
  { destruct tracked; [|apply preserves_ret].
    apply preserves_bind; [|intros; apply preserves_throw].
    apply preserves_exec, preserves_logEvent. }
  intros _. apply preserves_bind; [apply preserves_exec, inv_track|].
  intros _. apply preserves_bind.
  { apply preserves_exec. intros s. apply inv_disposedConnected. }
  intros _. apply preserves_bind; [apply preserves_gets|intros injected].
  destruct injected; [apply preserves_ret|].
  apply preserves_bind; [apply preserves_gets|intros [r|]].
  - apply preserves_bind; [|intros; apply preserves_exec, preserves_emit_added].
    apply preserves_bind; [apply preserves_gets|intros objName].
    destruct (truthy objName); [|apply preserves_ret].
    apply preserves_bind; [apply preserves_gets|intros ns].
    apply preserves_bind; [apply preserves_gets|intros d].
    apply preserves_bind.
    { apply preserves_exec. intros s. apply inv_nameProperty. }
    intros _. apply preserves_bind; [apply preserves_await|].
    intros; apply preserves_ret.
  - apply preserves_bind; [apply preserves_ret|].
    intros; apply preserves_exec, preserves_emit_added.
Qed.

Lemma inject_preserves obj : preserves P (inject slots obj).
Proof using HP Hslots.
  unfold inject. apply preserves_bind; [|intros; apply add_preserves].
  apply preserves_exec. intros s. apply inv_injectedProperty.
Qed.

Lemma save_preserves obj : preserves P (save slots obj).
Proof using HP Hslots.
  unfold save.
  apply preserves_bind; [apply preserves_gets|intros injected].
  apply preserves_bind; [apply preserves_gets|intros [r|]];
    (apply preserves_bind; [apply preserves_gets|intros tracked]);
    [|apply preserves_ret].
  destruct (negb tracked || injected); [apply preserves_ret|].
  apply preserves_bind; [apply preserves_gets|intros objName].
  apply preserves_bind; [apply preserves_gets|intros oldName].
  apply preserves_bind; [apply preserves_gets|intros ns].
  cbv zeta. apply preserves_bind.
  { destruct (_ && _); [|apply preserves_ret].
    apply preserves_bind; [apply preserves_await|intros; apply preserves_ret]. }
  intros _. apply preserves_bind.
  { apply preserves_exec. intros s. apply inv_nameProperty. }
  intros _. apply preserves_bind.
  { destruct (nonEmpty _); [|apply preserves_ret].
    apply preserves_bind; [apply preserves_gets|intros d].
    apply preserves_bind; [apply preserves_await|intros; apply preserves_ret]. }
  intros _. destruct (negb _); [|apply preserves_ret].
  apply preserves_exec, preserves_emit_updated.
Qed.

Lemma restoreBatch_preserves options saved :
  preserves P (restoreBatch options saved).
Proof using HP.
  intros s Hs. unfold restoreBatch.
  pose proof (mapEntries_spec options saved (ids saved) 0 s) as (Hs1&_).
  destruct (mapEntries options saved (ids saved) 0 s) as [ps s1].
  pose proof (settleEntries_spec options ps s1) as (Hs2&_).
  destruct (settleEntries options ps s1) as [os s2]. simpl in *.
  eapply preserves_sameTracker; [done|].
  by eapply preserves_sameTracker.
Qed.

Lemma restore_preserves options : preserves P (restore options).
Proof using HP.
  unfold restore.
  apply preserves_bind; [apply preserves_gets|intros hasRestored].
  apply preserves_bind.
  { destruct hasRestored; [apply preserves_throw|apply preserves_ret]. }
  intros _. apply preserves_bind; [apply preserves_exec, inv_hasRestored|].
  intros _. apply preserves_bind; [apply preserves_gets|intros ns].
  apply preserves_bind; [apply preserves_promise|intros listing].
  apply preserves_bind.
  { apply preserves_exec. intros s. apply inv_restore. }
  intros _. cbv zeta.
  apply preserves_bind; [apply preserves_awaitAll|intros _].
  apply preserves_bind; [apply preserves_settled|intros saved].
  apply preserves_bind; [apply restoreBatch_preserves|intros batch].
  apply preserves_bind; [apply preserves_awaitAll|intros vs].
  apply preserves_bind; [apply preserves_exec, inv_restored|].
  intros; apply preserves_ret.
Qed.

Lemma set_current_preserves (obj : option Obj) s :
  P s → P (set_current slots obj s).
Proof using HP Hslots.
  intros Hs. unfold set_current. case_bool_decide; [done|].
  destruct (has obj s) eqn:Hhas; [|done].
  apply preserves_emit_currentChanged. by apply inv_current.
Qed.

Lemma dispose_preserves s : P s → P (dispose s).
Proof using HP.
  intros Hs. unfold dispose. destruct (_isDisposed s); [done|].
  cbv zeta. unfold Signal_clearData.
  apply inv_slotsConnected, inv_disposedConnected.
  exact (inv_dispose s Hs).
Qed.

Lemma onInstanceDisposed_preserves obj s :
  P s → P (_onInstanceDisposed slots obj s).
Proof using HP Hslots.
  intros Hs. unfold _onInstanceDisposed. cbv zeta.
  set (s1 := with_instances _ s).
  assert (Hs2 : P (if bool_decide (Some obj = _current s1)
                   then emit_currentChanged slots (_current (with_current None s1))
                          (with_current None s1)
                   else s1)).
  { subst s1. simpl. case_bool_decide.
    - apply preserves_emit_currentChanged. by apply inv_untrack_current.
    - by apply inv_untrack. }
  destruct (injectedProperty_get obj _); [done|].
  destruct (_restore _); [|done].
  destruct (nonEmpty _); [|done].
  by apply preserves_issue.
Qed.

Lemma instanceDisposed_preserves obj s :
  P s → P (instanceDisposed slots obj s).
Proof using HP Hslots.
  intros Hs. unfold instanceDisposed. case_bool_decide; [|done].
  by apply inv_disposedConnected, onInstanceDisposed_preserves.
Qed.

(** Every step of a history keeps the property, and so does the history. *)
Lemma step_preserves s (op : Op W Any) : P s → P (step slots s op).
Proof using HP Hslots.
  intros Hs. destruct op; simpl.
  - by apply add_preserves.
  - by apply inject_preserves.
  - by apply set_current_preserves.
  - by apply restore_preserves.
  - by apply save_preserves.
  - by apply dispose_preserves.
  - by apply instanceDisposed_preserves.
  - by apply inv_world.
Qed.

Lemma run_preserves (ops : list (Op W Any)) s : P s → P (run slots ops s).
Proof using HP Hslots.
  revert s. induction ops as [|op ops IH]; intros s Hs; simpl; [done|].
  apply IH. by apply step_preserves.
Qed.

End Invariant.

(** A tracker without listeners keeps any property trivially. *)
Lemma noSlots_preserve (P : Sys W Any → Prop) : SlotsPreserve P noSlots.
Proof. by repeat split. Qed.

(** The slots of the widget tracker only log and assign [current]. *)
Lemma widgetSlots_preserve (P : Sys W Any → Prop) `{!TrackerInvariant P}
    (depth : nat) :
  SlotsPreserve P (widgetSlots depth).
Proof.
  induction depth as [|d IH]; (split; [|split]); simpl; intros x s Hs.
  all: try by apply (preserves_logEvent P).
  all: unfold propagateCurrent; cbv zeta.
  - destruct x, (focus_currentWidget (world s)); try done.
    all: by do 2 apply (preserves_logEvent P).
  - destruct x, (focus_currentWidget (world s)).
    all: try by do 2 apply (preserves_logEvent P).
    by apply (set_current_preserves P).
Qed.

(** ** current is null or tracked (C2) *)

#[local] Instance current_ok_invariant :
  TrackerInvariant (current_ok (W:=W) (Any:=Any)).
Proof.
  split; unfold current_ok, has; simpl; try done.
  - intros obj s [Hc|Hc]; [by left|right].
    destruct (_current s) as [c|]; [|done].
    apply JSSet_has_Some, JSSet_add_elem. right. by apply JSSet_has_Some.
  - intros obj s [Hc|Hc] Hne; [by left|right].
    destruct (_current s) as [c|]; [|done].
    apply JSSet_has_Some, JSSet_delete_elem.
    split; [congruence|by apply JSSet_has_Some].
  - intros. by left.
  - intros obj s _ Hobj. by right.
  - intros. by left.
Qed.

(** C2. In every state a tracker can reach from its construction by
    calls of [add], [inject], [restore], [save], [dispose] and of the
    setter of [current], by disposals of objects and by changes among the
    collaborators, [current] is [null] or a tracked object.  This holds
    for a tracker without listeners and for one wired to the slots of a
    widget tracker. *)
Theorem current_null_or_tracked (ns : string) (w : W)
    (ops : list (Op W Any)) :
  current_ok (run noSlots ops (new ns w)) ∧
  ∀ depth, current_ok (run (widgetSlots depth) ops (new ns w)).
Proof.
  assert (H0 : current_ok (new (Any:=Any) ns w)) by by left.
  split; [|intros depth].
  - exact (run_preserves current_ok noSlots (noSlots_preserve _) ops _ H0).
  - exact (run_preserves current_ok (widgetSlots depth)
             (widgetSlots_preserve _ depth) ops _ H0).
Qed.

(** ** restore runs once (C6) *)

#[local] Instance hasRestored_invariant :
  TrackerInvariant (λ s : Sys W Any, _hasRestored s = true).
Proof. by split. Qed.

Lemma restore_again options s :
  _hasRestored s = true →
  restore options s =
  (Rejected (JSError "Instance tracker has already restored"), s).
Proof. intros Hdone. unfold restore. run_method. by rewrite Hdone. Qed.

(** C6. The first call of [restore], one made while [_hasRestored] is
    still false, records its options as the restore configuration and
    goes on to ask the connector for the listing.  However that call
    ends, and whatever happens to the tracker afterwards, every later
    call of [restore] rejects with an error and changes nothing. *)
Theorem restore_at_most_once options s :
  _hasRestored s = false →
  let s1 := (restore options s).2 in
  _restore s1 = Some options ∧
  _hasRestored s1 = true ∧
  (∃ rest, since s s1 = CallList (namespace s) :: rest) ∧
  ∀ (ops : list (Op W Any)) options',
    let s2 := run noSlots ops s1 in
    restore options' s2 =
    (Rejected (JSError "Instance tracker has already restored"), s2).
Proof.
  intros Hfirst s1.
  assert (H1 : _restore s1 = Some options ∧ _hasRestored s1 = true ∧
               ∃ rest, log s1 = log s ++ CallList (namespace s) :: rest).
  { destruct (restore_first options s Hfirst) as (calls&w&resolved&Hs1&_).
    subst s1. rewrite Hs1. simpl. repeat split. by exists calls. }
  destruct H1 as (Hr&Hh&rest&Hlog). repeat split; try done.
  - exists rest. by apply since_app.
  - intros ops options' s2. apply restore_again.
    subst s2.
    exact (run_preserves (λ s, _hasRestored s = true) noSlots
             (noSlots_preserve _) ops _ Hh).
Qed.

(** ** restore: when [restored] resolves (C1) *)


(** ** WidgetTracker: re-asserting the focused widget *)

(** The slot re-enters itself at most once: the setter only emits tracked
    objects, never [null], so the nested run takes the other branch.  Any
    positive depth gives the same slot. *)
Lemma widgetSlots_depth (d : nat) (v : option Obj) s :
  onCurrentChanged (widgetSlots (S d)) v s =
  onCurrentChanged (widgetSlots 1) v s.
Proof.
  simpl. destruct v as [x|]; [done|].
  destruct (focus_currentWidget (world s)) as [focused|]; [|done].
  unfold set_current. case_bool_decide; [done|].
  destruct (has (Some focused) s); [|done].
  unfold emit_currentChanged. simpl.
  destruct (slotsConnected s); [|done]. by destruct d.
Qed.

(** The slot run on an emission of [null]: what [emit] does when
    [current] is [null] and the focus tracker reports [w]. *)
Lemma widget_slot_on_null (d : nat) s (w : Obj) :
  _current s = None →
  slotsConnected s = true →
  focus_currentWidget (world s) = Some w →
  emit_currentChanged (widgetSlots (S d)) None s =
  if has (Some w) s
  then propagateCurrent (Some w)
         (logEvent (EmitCurrentChanged (Some w))
            (with_current (Some w) (logEvent (EmitCurrentChanged None) s)))
  else logEvent (EmitCurrentChanged None) s.
Proof.
  intros Hcur Hconn Hfocus.
  unfold emit_currentChanged. cbv zeta.
  replace (slotsConnected (logEvent (EmitCurrentChanged None) s))
    with true by done.
  rewrite widgetSlots_depth. simpl. rewrite Hfocus.
  unfold set_current. simpl. rewrite Hcur.
  rewrite bool_decide_eq_false_2 by done.
  replace (has (Some w) (logEvent (EmitCurrentChanged None) s))
    with (has (Some w) s) by done.
  destruct (has (Some w) s); [|done].
  unfold emit_currentChanged. simpl. by rewrite Hconn.
Qed.

(** The slot on the instance tracker's [currentChanged], case by case.
    Let the focus tracker report a widget [w].
    - Whenever the underlying [currentChanged] is emitted with [null],
      [current] being [null]: if [w] is tracked, the slot assigns it to
      the underlying [current], so [currentWidget] is [w] and the public
      [currentChanged] is emitted once, with [w], and not with [null]; if
      [w] is not tracked, the assignment does nothing, [currentWidget]
      stays [null] and the public signal is not emitted at all.
    - So when the current widget [obj] is disposed: if [w] is another,
      tracked widget, [currentWidget] ends as [w] and the public signal
      carries [w] only; if [w] is [obj] itself or is not tracked,
      [currentWidget] ends [null] and the public signal is silent. *)
Theorem widget_reasserts_focused (d : nat) s (w : Obj) :
  slotsConnected s = true →
  focus_currentWidget (world s) = Some w →
  (_current s = None →
   let s' := emit_currentChanged (widgetSlots (S d)) None s in
   (has (Some w) s = true →
      currentWidget s' = Some w ∧
      since s s' =
        [EmitCurrentChanged None; EmitCurrentChanged (Some w);
         HookOnCurrentChanged (Some w); EmitWidgetCurrentChanged (Some w)]) ∧
   (has (Some w) s = false →
      currentWidget s' = None ∧
      since s s' = [EmitCurrentChanged None])) ∧
  (∀ obj, _current s = Some obj →
   let s' := _onInstanceDisposed (widgetSlots (S d)) obj s in
   (w ≠ obj → has (Some w) s = true →
      currentWidget s' = Some w ∧
      filter isWidgetCurrentChanged (since s s') =
        [EmitWidgetCurrentChanged (Some w)]) ∧
   (w = obj ∨ has (Some w) s = false →
      currentWidget s' = None ∧
      filter isWidgetCurrentChanged (since s s') = [])).
Proof.
  intros Hconn Hfocus. split.
  - intros Hcur s'. subst s'.
    rewrite (widget_slot_on_null d s w Hcur Hconn Hfocus).
    split; intros Hhas; rewrite Hhas.
    + unfold propagateCurrent, currentWidget, current. simpl.
      split; [done|]. by log_norm.
    + unfold currentWidget, current. simpl. split; [done|]. by log_norm.
  - intros obj Hcur s'. subst s'. unfold _onInstanceDisposed. cbv zeta.
    set (s1 := with_instances (JSSet.delete obj (_instances s)) s).
    replace (_current s1) with (Some obj) by done.
    rewrite bool_decide_eq_true_2 by done.
    replace (_current (with_current None s1)) with (@None Obj) by done.
    rewrite (widget_slot_on_null d (with_current None s1) w) by done.
    replace (has (Some w) (with_current None s1))
      with (JSSet.has (JSSet.delete obj (_instances s)) (Some w)) by done.
    split.
    + intros Hne Hhas.
      rewrite JSSet_has_delete_other by done.
      unfold has in Hhas. rewrite Hhas.
      set (s2 := propagateCurrent _ _).
      assert (H2 : _current s2 = Some w ∧
                filter isWidgetCurrentChanged (since s s2) =
                  [EmitWidgetCurrentChanged (Some w)]).
      { subst s2 s1. unfold propagateCurrent. simpl. split; [done|].
        by log_norm. }
      destruct H2 as [Hc2 Hl2].
      assert (Hcall : ∀ nm (c : Call Any),
                _current (void (CallRemove nm) c s2) = Some w ∧
                filter isWidgetCurrentChanged
                  (since s (void (CallRemove nm) c s2)) =
                  [EmitWidgetCurrentChanged (Some w)]).
      { intros nm c. unfold void, issue. destruct (c (world s2)) as [o w2].
        simpl. split; [done|]. subst s2 s1. unfold propagateCurrent.
        by log_norm. }
      unfold currentWidget, current.
      destruct (injectedProperty_get obj s2); [done|].
      destruct (_restore s2); [|done].
      destruct (nonEmpty _); [apply Hcall|done].
    + intros Hno.
      assert (Hhas : JSSet.has (JSSet.delete obj (_instances s)) (Some w)
                     = false).
      { destruct Hno as [->|Hno]; [apply JSSet_has_delete_same|].
        destruct (decide (w = obj)) as [->|Hne];
          [apply JSSet_has_delete_same|].
        by rewrite JSSet_has_delete_other. }
      rewrite Hhas.
      set (s2 := logEvent _ _).
      assert (Hcall : ∀ nm (c : Call Any),
                _current (void (CallRemove nm) c s2) = None ∧
                filter isWidgetCurrentChanged
                  (since s (void (CallRemove nm) c s2)) = []).
      { intros nm c. unfold void, issue. destruct (c (world s2)) as [o w2].
        simpl. split; [done|]. subst s2 s1. by log_norm. }
      assert (H2 : _current s2 = None ∧
                filter isWidgetCurrentChanged (since s s2) = []).
      { subst s2 s1. simpl. split; [done|]. by log_norm. }
      unfold currentWidget, current.
      destruct (injectedProperty_get obj s2); [done|].
      destruct (_restore s2); [|done].
      destruct (nonEmpty _); [apply Hcall|done].
Qed.

(** ** add: the accepted paths *)

Lemma JSSet_add_new (l : list Obj) obj :
  JSSet.has l (Some obj) = false → JSSet.add obj l = l ++ [obj].
Proof.
  intros Hnot. unfold JSSet.add. apply bool_decide_eq_false in Hnot.
  by rewrite bool_decide_eq_false_2.
Qed.

(** The second guard of [add], whoever listens to the tracker. *)
Lemma add_rejects_tracked slots obj s :
  has (Some obj) s = true →
  ∃ e s', add slots obj s = (Rejected e, s') ∧ _instances s' = _instances s.
Proof.
  intros Hhas. unfold add. run_method.
  destruct (isDisposed (world s) obj); simpl; [by eexists _, _|].
  rewrite Hhas. simpl. by eexists _, _.
Qed.

(** [add] once both guards have passed, with every test read off the
    state it starts from. *)
Lemma add_unfold slots obj s :
  isDisposed (world s) obj = false →
  has (Some obj) s = false →
  add slots obj s =
  let s1 := disposed_connect obj (with_instances (_instances s ++ [obj]) s) in
  if injectedProperty_get obj s then (Fulfilled (), s1)
  else
    match _restore s with
    | None => (Fulfilled (), emit_added slots obj s1)
    | Some r =>
        let objName := name r (world s) obj in
        if truthy objName then
          let nm := qualified (namespace s) (default "" objName) in
          let item := {| data := Some (args r (world s) obj) |} in
          let s2 := logEvent (CallSave nm item) (nameProperty_set obj nm s1) in
          match conn_save (connector r) nm item (world s) with
          | (Fulfilled _, w) =>
              (Fulfilled (), emit_added slots obj (with_world w s2))
          | (Rejected e, w) => (Rejected e, with_world w s2)
          end
        else (Fulfilled (), emit_added slots obj s1)
    end.
Proof.
  intros Hd Hhas. unfold add. run_method. rewrite Hd. simpl.
  rewrite Hhas. simpl. rewrite (JSSet_add_new _ _ Hhas).
  unfold injectedProperty_get. simpl.
  destruct (default false (injectedProperty s !! obj)); [reflexivity|].
  simpl. destruct (_restore s) as [r|]; simpl; [|reflexivity].
  destruct (truthy (name r (world s) obj)); simpl; [|reflexivity].
  unfold issue. simpl.
  by destruct (conn_save _ _ _ _) as [[v|e] w].
Qed.

(** X1. [add] of a live, untracked object that is not injected, when
    nothing is to be persisted for it (no restore configuration, or a
    configuration whose [name] gives [null] or the empty string):
    [add] fulfils, the object is appended to the tracked set, its
    [disposed] signal is connected, and the only effect is one [added]
    signal; the connector is not called, no name is recorded, and
    [current] is left as it was: adding does not make an object
    current. *)
Theorem add_accepts_without_persisting obj s :
  isDisposed (world s) obj = false →
  has (Some obj) s = false →
  injectedProperty_get obj s = false →
  (∀ r, _restore s = Some r → truthy (name r (world s) obj) = false) →
  let res := add noSlots obj s in
  res.1 = Fulfilled () ∧
  _instances res.2 = _instances s ++ [obj] ∧
  size res.2 = S (size s) ∧
  obj ∈ disposedConnected res.2 ∧
  _current res.2 = _current s ∧
  nameProperty res.2 = nameProperty s ∧
  world res.2 = world s ∧
  since s res.2 = [EmitAdded obj].
Proof.
  intros Hd Hhas Hinj Hname res. subst res.
  rewrite (add_unfold _ _ _ Hd Hhas). cbv zeta. rewrite Hinj.
  assert (Hsize : ∀ l : list Obj, length (l ++ [obj]) = S (length l)).
  { intros l. rewrite length_app. simpl. lia. }
  assert (Hconn : obj ∈ JSSet.add obj (disposedConnected s)).
  { apply JSSet_add_elem. by left. }
  destruct (_restore s) as [r|] eqn:Hr.
  - rewrite (Hname r eq_refl), emit_added_noSlots. unfold size. simpl.
    repeat split; try done. by log_norm.
  - rewrite emit_added_noSlots. unfold size. simpl.
    repeat split; try done. by log_norm.
Qed.

(** X2. [add] of a live, untracked object that is not injected, with a
    restore configuration whose [name] gives a non-empty name, when
    [connector.save] fulfils: the object is appended to the tracked
    set, the key [namespace:name] is recorded as its name tag, and the
    effects are, in this order, the write of the object's arguments
    under that key and one [added] signal; the collaborators are left in
    the state the connector answered, and [current] is left as it
    was. *)
Theorem add_persists_named obj s r (objName : string) (v : Any) (w' : W) :
  isDisposed (world s) obj = false →
  has (Some obj) s = false →
  injectedProperty_get obj s = false →
  _restore s = Some r →
  name r (world s) obj = Some objName →
  objName ≠ "" →
  let nm := qualified (namespace s) objName in
  let item := {| data := Some (args r (world s) obj) |} in
  conn_save (connector r) nm item (world s) = (Fulfilled v, w') →
  let res := add noSlots obj s in
  res.1 = Fulfilled () ∧
  _instances res.2 = _instances s ++ [obj] ∧
  obj ∈ disposedConnected res.2 ∧
  nameProperty_get obj res.2 = nm ∧
  _current res.2 = _current s ∧
  world res.2 = w' ∧
  since s res.2 = [CallSave nm item; EmitAdded obj].
Proof.
  intros Hd Hhas Hinj Hr Hname Hne nm item Hsave res. subst res.
  rewrite (add_unfold _ _ _ Hd Hhas). cbv zeta. rewrite Hinj, Hr, Hname.
  replace (truthy (Some objName)) with true
    by (symmetry; apply (proj2 (nonEmpty_true objName)), Hne).
  simpl. fold nm item. rewrite Hsave, emit_added_noSlots. simpl.
  repeat split; try done.
  - apply JSSet_add_elem. by left.
  - unfold nameProperty_get. simpl. by rewrite lookup_insert_eq.
  - by log_norm.
Qed.

(** ** inject *)

(** The guard of [save], whoever listens to the tracker. *)
Lemma save_skips slots obj s :
  _restore s = None ∨ has (Some obj) s = false ∨
  injectedProperty_get obj s = true →
  save slots obj s = (Fulfilled (), s).
Proof.
  intros Hno. unfold save. run_method.
  destruct (_restore s) as [r|]; [|done].
  destruct Hno as [?|[Hno|Hno]]; [done|rewrite Hno..]; simpl; [done|].
  by rewrite orb_true_r.
Qed.

(** X3. [inject] of a live, untracked object: it fulfils, the object is
    appended to the tracked set and marked as injected, its [disposed]
    signal is connected, and nothing else happens, whoever listens to
    the tracker: no signal is emitted, the connector is not called, no
    name is recorded and [current] is left as it was. *)
Theorem inject_tracks_silently slots obj s :
  isDisposed (world s) obj = false →
  has (Some obj) s = false →
  let res := inject slots obj s in
  res.1 = Fulfilled () ∧
  _instances res.2 = _instances s ++ [obj] ∧
  injectedProperty_get obj res.2 = true ∧
  obj ∈ disposedConnected res.2 ∧
  nameProperty res.2 = nameProperty s ∧
  _current res.2 = _current s ∧
  world res.2 = world s ∧
  log res.2 = log s.
Proof.
  intros Hd Hhas res. subst res. unfold inject. run_method.
  rewrite add_unfold by done. cbv zeta.
  unfold injectedProperty_get. simpl. rewrite lookup_insert_eq. simpl.
  repeat split; try done.
  - by rewrite lookup_insert_eq.
  - apply JSSet_add_elem. by left.
Qed.

(** X4. [inject] marks the object before [add] checks it.  Injecting an
    object that is already tracked is refused by [add], with its warning
    as the only effect and the tracked set unchanged, and the object is
    marked as injected all the same: from then on [save] does nothing
    for it and its disposal asks for no removal, even if it was added
    with a persisted name. *)
Theorem inject_rejected_still_marks slots obj s :
  has (Some obj) s = true →
  isDisposed (world s) obj = false →
  let res := inject slots obj s in
  res.1 = Rejected (JSError "This object already exists in the tracker.") ∧
  _instances res.2 = _instances s ∧
  since s res.2 =
    [ConsoleWarn "This object already exists in the tracker." obj] ∧
  injectedProperty_get obj res.2 = true ∧
  save slots obj res.2 = (Fulfilled (), res.2) ∧
  filter isCall (since res.2 (_onInstanceDisposed noSlots obj res.2)) = [].
Proof.
  intros Hhas Hd res. subst res. unfold inject, add. run_method.
  rewrite Hd. simpl.
  replace (has (Some obj) (injectedProperty_set obj true s)) with true.
  simpl. set (s' := logEvent _ _).
  assert (Hinj : injectedProperty_get obj s' = true).
  { unfold injectedProperty_get. simpl. by rewrite lookup_insert_eq. }
  repeat split; try done.
  - by log_norm.
  - apply save_skips. by right; right.
  - clearbody s'. rewrite onInstanceDisposed_unfold. cbv zeta. rewrite Hinj.
    case_bool_decide; by log_norm.
Qed.
(** ** dispose *)

Lemma emit_added_disconnected slots obj s :
  slotsConnected s = false →
  emit_added slots obj s = logEvent (EmitAdded obj) s.
Proof. intros Hoff. unfold emit_added. simpl. by rewrite Hoff. Qed.

(** X5. [dispose] on a tracker that is not yet disposed empties the
    tracked set, sets [current] to [null] and marks the tracker
    disposed, without emitting anything: no [currentChanged] tells that
    [current] became [null], and the collaborators are left alone.  The
    restore configuration and the recorded names stay.  Afterwards the
    disposal of an object no longer reaches the tracker and an emission
    no longer runs any slot.  A second [dispose] changes nothing. *)
Theorem dispose_clears_silently slots s :
  let s' := dispose s in
  dispose s' = s' ∧
  (_isDisposed s = false →
     _isDisposed s' = true ∧
     _instances s' = [] ∧
     size s' = 0 ∧
     (∀ o, has o s' = false) ∧
     _current s' = None ∧
     log s' = log s ∧
     world s' = world s ∧
     _restore s' = _restore s ∧
     nameProperty s' = nameProperty s ∧
     (∀ obj, instanceDisposed slots obj s' = s') ∧
     (∀ v, emit_currentChanged slots v s' =
           logEvent (EmitCurrentChanged v) s')).
Proof.
  unfold dispose. destruct (_isDisposed s) eqn:Hdisp; cbv zeta.
  { rewrite Hdisp. by split. }
  split; [done|]. intros _. unfold size, has. simpl.
  repeat split; try done. by intros [o|].
Qed.

(** X6. [add] does not look at the tracker's own [isDisposed].  After
    [dispose], adding a live object still tracks it: it is the one
    tracked object, its [disposed] signal is connected again, the
    tracker stays disposed and [current] stays [null]; the object's
    later disposal removes it again.  Only the slots stay disconnected:
    whoever listened, [add] goes as on a tracker without listeners. *)
Theorem add_after_dispose slots obj s :
  _isDisposed s = false →
  isDisposed (world s) obj = false →
  let s0 := dispose s in
  let res := add slots obj s0 in
  res = add noSlots obj s0 ∧
  _instances res.2 = [obj] ∧
  has (Some obj) res.2 = true ∧
  disposedConnected res.2 = [obj] ∧
  _isDisposed res.2 = true ∧
  _current res.2 = None ∧
  _instances (instanceDisposed slots obj res.2) = [].
Proof.
  intros Hlive Hd s0 res.
  assert (Hs0 : s0 =
    Signal_clearData (with_isDisposed true
      (with_instances [] (with_current None s)))).
  { subst s0. unfold dispose. by rewrite Hlive. }
  assert (Hdel : JSSet.delete obj [obj] = []).
  { apply elem_of_nil_inv.
    by intros x [Hne Hx%list_elem_of_singleton]%JSSet_delete_elem. }
  assert (Hin : bool_decide (obj ∈ [obj]) = true).
  { apply bool_decide_eq_true, list_elem_of_here. }
  assert (Hdone : ∀ s1 : Sys W Any,
    _instances s1 = [obj] → disposedConnected s1 = [obj] →
    _isDisposed s1 = true → _current s1 = None →
    _instances s1 = [obj] ∧ has (Some obj) s1 = true ∧
    disposedConnected s1 = [obj] ∧ _isDisposed s1 = true ∧
    _current s1 = None ∧
    _instances (instanceDisposed slots obj s1) = []).
  { intros s1 Hi Hc Hdisp Hcur.
    unfold instanceDisposed. rewrite Hc, Hin.
    unfold has, _onInstanceDisposed. simpl. rewrite Hi, Hcur, Hdel.
    unfold JSSet.has. rewrite Hin.
    rewrite bool_decide_eq_false_2 by done.
    repeat split; try done.
    destruct (injectedProperty_get obj _); [done|].
    destruct (_restore _); [|done].
    destruct (nonEmpty _); [|done].
    unfold void, issue. by destruct (conn_remove _ _ _). }
  subst res. rewrite !add_unfold by (by rewrite Hs0). cbv zeta.
  destruct (injectedProperty_get obj s0) eqn:Hinj.
  { split; [done|]. apply Hdone; by rewrite Hs0. }
  destruct (_restore s0) as [r|].
  2: { rewrite !emit_added_disconnected by (by rewrite Hs0).
       split; [done|]. apply Hdone; by rewrite Hs0. }
  destruct (truthy _).
  2: { rewrite !emit_added_disconnected by (by rewrite Hs0).
       split; [done|]. apply Hdone; by rewrite Hs0. }
  destruct (conn_save _ _ _ _) as [[v|e] w1].
  - rewrite !emit_added_disconnected by (by rewrite Hs0).
    split; [done|]. apply Hdone; by rewrite Hs0.
  - split; [done|]. apply Hdone; by rewrite Hs0.
Qed.
(** ** An object's way through the tracker *)

Lemma JSSet_delete_last (l : list Obj) obj :
  obj ∉ l → JSSet.delete obj (l ++ [obj]) = l.
Proof.
  unfold JSSet.delete. induction l as [|x l IH]; intros Hnot; simpl.
  - by rewrite filter_cons_False by (by intros ?).
  - apply not_elem_of_cons in Hnot as [Hne Hnot].
    rewrite filter_cons_True by done. by rewrite IH.
Qed.

(** X7. An object that is added and later disposed leaves the tracker
    as it found it.  For a live, untracked object that is not injected
    and not current, with a restore configuration that names it, and a
    connector whose write fulfils: after [add] and the delivery of the
    object's disposal the tracked set and [current] are the ones before
    [add], the object's [disposed] signal is no longer connected, and
    the effects are, in this order, the write under the key
    [namespace:name], the [added] signal, and the removal of that same
    key, asked of the collaborators as the write left them. *)
Theorem add_then_disposed_roundtrip obj s r (objName : string) (v : Any)
    (w' : W) :
  isDisposed (world s) obj = false →
  has (Some obj) s = false →
  injectedProperty_get obj s = false →
  _current s ≠ Some obj →
  _restore s = Some r →
  name r (world s) obj = Some objName →
  objName ≠ "" →
  let nm := qualified (namespace s) objName in
  let item := {| data := Some (args r (world s) obj) |} in
  conn_save (connector r) nm item (world s) = (Fulfilled v, w') →
  let s1 := (add noSlots obj s).2 in
  let s2 := instanceDisposed noSlots obj s1 in
  has (Some obj) s1 = true ∧
  _instances s2 = _instances s ∧
  size s2 = size s ∧
  _current s2 = _current s ∧
  (obj ∉ disposedConnected s2) ∧
  since s s2 = [CallSave nm item; EmitAdded obj; CallRemove nm] ∧
  world s2 = (conn_remove (connector r) nm w').2.
Proof.
  intros Hd Hhas Hinj Hcur Hr Hname Hne nm item Hsave s1 s2.
  assert (Hs1 : s1 =
    logEvent (EmitAdded obj)
      (with_world w'
         (logEvent (CallSave nm item)
            (nameProperty_set obj nm
               (disposed_connect obj
                  (with_instances (_instances s ++ [obj]) s)))))).
  { subst s1. rewrite (add_unfold _ _ _ Hd Hhas). cbv zeta.
    rewrite Hinj, Hr, Hname.
    replace (truthy (Some objName)) with true
      by (symmetry; apply (proj2 (nonEmpty_true objName)), Hne).
    simpl. fold nm item. by rewrite Hsave, emit_added_noSlots. }
  assert (Hnot : obj ∉ _instances s).
  { intros Hin. apply JSSet_has_Some in Hin. unfold has in Hhas. congruence. }
  assert (Hnm : nonEmpty nm = true).
  { apply nonEmpty_true. unfold nm, qualified.
    destruct (namespace s); discriminate. }
  subst s2. unfold instanceDisposed.
  rewrite bool_decide_eq_true_2
    by (rewrite Hs1; apply JSSet_add_elem; by left).
  rewrite onInstanceDisposed_unfold. cbv zeta.
  replace (_current s1) with (_current s) by (by rewrite Hs1).
  rewrite (bool_decide_eq_false_2 _ Hcur).
  replace (injectedProperty_get obj s1) with false by (by rewrite Hs1).
  replace (_restore s1) with (Some r) by (by rewrite Hs1).
  replace (nameProperty_get obj s1) with nm.
  2: { rewrite Hs1. unfold nameProperty_get. simpl.
       by rewrite lookup_insert_eq. }
  rewrite Hnm. unfold void, issue, size. simpl.
  replace (world s1) with w' by (by rewrite Hs1).
  destruct (conn_remove (connector r) nm w') as [o w2]. simpl.
  replace (_instances s1) with (_instances s ++ [obj]) by (by rewrite Hs1).
  rewrite (JSSet_delete_last _ _ Hnot).
  repeat split; try done.
  - rewrite Hs1. unfold has. simpl. apply JSSet_has_Some, elem_of_app.
    right. apply list_elem_of_here.
  - by rewrite Hs1.
  - rewrite JSSet_delete_elem. by intros [? _].
  - rewrite Hs1. by log_norm.
Qed.

(** ** Queries: find, filter, forEach *)

Lemma find_in_Some (fn : Obj → bool) (l : list Obj) obj :
  find_in fn l = Some obj →
  fn obj = true ∧
  ∃ k, l !! k = Some obj ∧
       ∀ j o, j < k → l !! j = Some o → fn o = false.
Proof.
  induction l as [|x l IH]; simpl; [done|].
  destruct (fn x) eqn:Hx.
  - intros [= ->]. split; [done|]. exists 0. split; [done|]. lia.
  - intros Hfind. destruct (IH Hfind) as (Hobj&k&Hk&Hbefore).
    split; [done|]. exists (S k). split; [done|].
    intros [|j] o Hj Ho; simpl in Ho; [by simplify_eq|].
    apply (Hbefore j); [lia|done].
Qed.

Lemma find_in_None (fn : Obj → bool) (l : list Obj) :
  find_in fn l = None ↔ ∀ o, o ∈ l → fn o = false.
Proof.
  induction l as [|x l IH]; simpl.
  - split; [|done]. by intros _ o ?%elem_of_nil.
  - destruct (fn x) eqn:Hx.
    + split; [done|]. intros Hall.
      specialize (Hall x (list_elem_of_here _ _)). congruence.
    + rewrite IH. split.
      * intros Hall o [->|Ho]%elem_of_cons; [done|by apply Hall].
      * intros Hall o Ho. by apply Hall, list_elem_of_further.
Qed.

Lemma find_in_head (fn : Obj → bool) (l : list Obj) :
  find_in fn l = head (List.filter fn l).
Proof.
  induction l as [|x l IH]; simpl; [done|]. by destruct (fn x).
Qed.

(** X8. [find] returns the first tracked object, in insertion order,
    that satisfies the predicate: the result is tracked, satisfies it,
    and every object tracked before it does not.  [find] returns
    nothing exactly when no tracked object satisfies the predicate.
    [find] agrees with [filter]: it returns the first element of what
    [filter] returns. *)
Theorem find_first_match (fn : Obj → bool) s :
  (∀ obj, find fn s = Some obj →
     has (Some obj) s = true ∧ fn obj = true ∧
     ∃ k, _instances s !! k = Some obj ∧
          ∀ j o, j < k → _instances s !! j = Some o → fn o = false) ∧
  (find fn s = None ↔ ∀ o, has (Some o) s = true → fn o = false) ∧
  find fn s = head (filter_instances fn s).
Proof.
  unfold find, has. split; [|split].
  - intros obj Hfind.
    destruct (find_in_Some _ _ _ Hfind) as (Hobj&k&Hk&Hbefore).
    split; [|split; [done|by exists k]].
    by eapply JSSet_has_Some, list_elem_of_lookup_2.
  - rewrite find_in_None. split; intros Hall o Ho.
    + by apply Hall, JSSet_has_Some.
    + by apply Hall, JSSet_has_Some.
  - by rewrite filter_instances_spec, find_in_head.
Qed.

Lemma filter_sublist (fn : Obj → bool) (l : list Obj) :
  List.filter fn l `sublist_of` l.
Proof.
  induction l as [|x l IH]; simpl; [done|].
  destruct (fn x); [by apply sublist_skip|by apply sublist_cons].
Qed.

Lemma filter_all (l : list Obj) : List.filter (λ _, true) l = l.
Proof. induction l as [|x l IH]; simpl; [done|]. by rewrite IH. Qed.

Lemma foldl_count {A} (l : list A) (n : nat) :
  foldl (λ a _, S a) n l = n + length l.
Proof.
  revert n. induction l as [|x l IH]; intros n; simpl; [lia|].
  rewrite IH. lia.
Qed.

(** X9. [filter] returns exactly the tracked objects that satisfy the
    predicate, in the order in which they were added (a subsequence of
    the tracked set); with a predicate that is always true it returns
    the whole tracked set.  [forEach] calls back once per tracked
    object, in that order: counting the calls gives [size], collecting
    the arguments gives the tracked set. *)
Theorem filter_members_in_order (fn : Obj → bool) s :
  (∀ obj, obj ∈ filter_instances fn s ↔
          has (Some obj) s = true ∧ fn obj = true) ∧
  filter_instances fn s `sublist_of` _instances s ∧
  filter_instances (λ _, true) s = _instances s ∧
  forEach (λ _ n, S n) s 0 = size s ∧
  forEach (λ obj seen, seen ++ [obj]) s [] = _instances s.
Proof.
  rewrite !filter_instances_spec. unfold has, forEach, size.
  split; [|split; [|split; [|split]]].
  - intros obj. rewrite list_elem_of_In, filter_In,
      <- list_elem_of_In, JSSet_has_Some. done.
  - apply filter_sublist.
  - apply filter_all.
  - by rewrite foldl_count.
  - pose proof (forEach_filter_acc (λ _, true) (_instances s) []) as Hacc.
    simpl in Hacc. rewrite Hacc. apply filter_all.
Qed.

(** ** The tracked set holds no object twice *)

#[local] Instance NoDup_invariant :
  TrackerInvariant (λ s : Sys W Any, NoDup (_instances s)).
Proof.
  split; simpl; try done.
  - intros obj s Hs. unfold JSSet.add. case_bool_decide as Hin; [done|].
    apply NoDup_app. split; [done|]. split; [|apply NoDup_singleton].
    by intros x Hx ->%list_elem_of_singleton.
  - intros obj s Hs _. by apply NoDup_filter.
  - intros obj s Hs _. by apply NoDup_filter.
  - intros. apply NoDup_nil_2.
Qed.

Lemma filter_eq_absent (l : list Obj) obj :
  obj ∉ l → List.filter (λ o, bool_decide (o = obj)) l = [].
Proof.
  induction l as [|x l IH]; simpl; [done|].
  intros [Hne Hnot]%not_elem_of_cons.
  rewrite bool_decide_eq_false_2 by done. by apply IH.
Qed.

Lemma filter_eq_once (l : list Obj) obj :
  NoDup l → obj ∈ l → List.filter (λ o, bool_decide (o = obj)) l = [obj].
Proof.
  induction l as [|x l IH]; simpl; [by intros _ ?%elem_of_nil|].
  intros [Hx Hl]%NoDup_cons Hin. case_bool_decide as Heq.
  - subst x. by rewrite filter_eq_absent.
  - apply IH; [done|]. apply elem_of_cons in Hin as [->|Hin]; done.
Qed.

(** X10. In every state a tracker can reach from its construction, the
    tracked set holds no object twice, so [size] counts distinct objects
    and [filter] (hence [forEach]) meets every tracked object exactly
    once.  This holds for a tracker without listeners and for one wired
    to the slots of a widget tracker. *)
Theorem instances_no_duplicates (ns : string) (w : W)
    (ops : list (Op W Any)) :
  (let s := run noSlots ops (new ns w) in
   NoDup (_instances s) ∧
   ∀ obj, has (Some obj) s = true →
          filter_instances (λ o, bool_decide (o = obj)) s = [obj]) ∧
  (∀ depth,
   let s := run (widgetSlots depth) ops (new ns w) in
   NoDup (_instances s) ∧
   ∀ obj, has (Some obj) s = true →
          filter_instances (λ o, bool_decide (o = obj)) s = [obj]).
Proof.
  assert (H0 : NoDup (_instances (new (Any:=Any) ns w))) by apply NoDup_nil_2.
  assert (Honce : ∀ s, NoDup (_instances s) →
    NoDup (_instances s) ∧
    ∀ obj, has (Some obj) s = true →
           filter_instances (λ o, bool_decide (o = obj)) s = [obj]).
  { intros s Hs. split; [done|]. intros obj Hobj.
    rewrite filter_instances_spec. apply filter_eq_once; [done|].
    by apply JSSet_has_Some. }
  split; [|intros depth]; cbv zeta; apply Honce.
  - exact (run_preserves (λ s, NoDup (_instances s)) noSlots
             (noSlots_preserve _) ops _ H0).
  - exact (run_preserves (λ s, NoDup (_instances s)) (widgetSlots depth)
             (widgetSlots_preserve _ depth) ops _ H0).
Qed.
(** ** restore: failing before any entry *)

(** X11. When the listing rejects, or one of the gating promises does,
    a first call of [restore] rejects before it looks at any entry, with
    the reason of one of the promises that rejected: the listing's when
    no gating promise rejected, the one of a gating promise when the
    listing fulfilled.  The listing is the only call made: no command is
    executed and no entry removed, and [restored] is left as it was.
    The call has nevertheless been counted and its options recorded: a
    second call of [restore] is refused, so the entries are never
    restored by this tracker. *)
Theorem restore_fails_before_entries options s :
  _hasRestored s = false →
  let listing := conn_list (connector options) (namespace s) (world s) in
  let gate := default [] (when options) in
  isFulfilled listing.1 = false ∨ forallb isFulfilled gate = false →
  let res := restore options s in
  (∃ e, res.1 = Rejected e ∧ (listing.1 = Rejected e ∨ Rejected e ∈ gate)) ∧
  (∀ e, listing.1 = Rejected e → forallb isFulfilled gate = true →
        res.1 = Rejected e) ∧
  since s res.2 = [CallList (namespace s)] ∧
  world res.2 = listing.2 ∧
  _hasRestored res.2 = true ∧
  _restore res.2 = Some options ∧
  _restored res.2 = _restored s ∧
  _instances res.2 = _instances s ∧
  ∀ options',
    restore options' res.2 =
    (Rejected (JSError "Instance tracker has already restored"), res.2).
Proof.
  intros Hfirst listing gate Hfail res.
  set (promises := valueDropped listing.1 :: map valueDropped gate).
  assert (Hsome : rejections promises ≠ []).
  { subst promises. simpl. destruct Hfail as [Hl|Hg].
    - by destruct listing.1.
    - apply rejections_some in Hg. rewrite <- rejections_valueDropped in Hg.
      destruct listing.1; simpl; [done|]. by intros ?. }
  destruct (Promise_all_rejects
              (earliestRejection listing.2 (rejections promises))
              promises Hsome) as (e&He&Hin).
  assert (Hres : res =
    (Rejected e,
     with_restore (Some options)
       (with_world listing.2
          (logEvent (CallList (namespace s)) (with_hasRestored true s))))).
  { subst res promises listing gate. unfold restore, awaitAll. run_method.
    rewrite Hfirst. simpl. unfold issue. simpl.
    destruct (conn_list (connector options) (namespace s) (world s))
      as [l w1]. simpl in *. by rewrite He. }
  rewrite Hres. simpl. split; [|split].
  - exists e. split; [done|]. subst promises.
    apply elem_of_cons in Hin as [Hl|Hg].
    + left. by destruct listing.1; simpl in *; simplify_eq.
    + right. by apply rejections_elem; rewrite <- rejections_valueDropped;
        apply rejections_elem.
  - intros e' Hl Hg. f_equal.
    assert (Hone : rejections promises = [e']).
    { subst promises. simpl. rewrite Hl. simpl.
      rewrite rejections_valueDropped. by apply rejections_none in Hg as ->. }
    revert He. unfold Promise_all. rewrite Hone.
    intros [= <-]. by destruct (earliestRejection _ _) as [|[|n]].
  - repeat split; try done. by log_norm.
Qed.

(** ** restore: which entries are removed *)

Lemma entryCalls_inv options saved (l : list string) index (e : Event Any) :
  e ∈ entryCalls options saved l index →
  ∃ k id, l !! k = Some id ∧ e = entryCall options saved id (index + k).
Proof.
  revert index. induction l as [|x l IH]; intros index; simpl.
  - by intros ?%elem_of_nil.
  - intros [->|He]%elem_of_cons.
    + exists 0, x. by rewrite Nat.add_0_r.
    + destruct (IH _ He) as (k&id&Hk&->). exists (S k), id.
      split; [done|]. f_equal. lia.
Qed.

Lemma catchRemovals_inv (ps : list (Pending Any)) (e : Event Any) :
  e ∈ catchRemovals ps →
  ∃ k id err, ps !! k = Some (Executing id (Rejected err)) ∧ e = CallRemove id.
Proof.
  unfold catchRemovals. intros (p&Hp&He)%list_elem_of_In%in_flat_map.
  apply list_elem_of_In, list_elem_of_lookup_1 in Hp as (k&Hk).
  destruct p as [o|id [v|err]]; simpl in He; try done.
  destruct He as [<-|[]]. by exists k, id, err.
Qed.

(** X12. Once the listing and the gate have fulfilled, [restore] only
    talks to the connector and the registry: every effect is a call, no
    signal is emitted and nothing is written to the connector.  It
    removes nothing but stale entries: whenever the removal of a key is
    asked, the key is a listed entry that has no data payload, or one
    whose command execution, as issued (in the state of the
    collaborators the calls for the entries before it left), rejected;
    an entry with a payload whose execution fulfilled is left in the
    store. *)
Theorem restore_removes_only_stale options s saved (w1 : W) :
  _hasRestored s = false →
  conn_list (connector options) (namespace s) (world s) = (Fulfilled saved, w1) →
  forallb isFulfilled (default [] (when options)) = true →
  let res := restore options s in
  (∀ e, e ∈ since s res.2 → isCall e = true) ∧
  (∀ e key item, e ∈ since s res.2 → e ≠ CallSave key item) ∧
  (∀ id, CallRemove id ∈ since s res.2 →
     ∃ index, ids saved !! index = Some id ∧
       (payload saved index = None ∨
        ∃ a err,
          payload saved index = Some a ∧
          (execute (registry options) (command options) a
             (firstCalls options saved (take index (ids saved)) 0 w1).2).1 =
            Rejected err)).
Proof.
  intros Hfirst Hlist Hgate res.
  destruct (restore_settles options s saved w1 Hfirst Hlist Hgate)
    as (Hlog&_&_).
  set (first := firstCalls options saved (ids saved) 0 w1) in *.
  assert (Hsince : since s res.2 =
    CallList (namespace s) ::
      entryCalls options saved (ids saved) 0 ++ catchRemovals first.1)
    by by apply since_app.
  rewrite Hsince.
  assert (Hkind : ∀ e,
    e ∈ CallList (namespace s) ::
        entryCalls options saved (ids saved) 0 ++ catchRemovals first.1 →
    e = CallList (namespace s) ∨
    (∃ a, e = CallExecute (command options) a) ∨
    ∃ id index, e = CallRemove id ∧ ids saved !! index = Some id ∧
      (payload saved index = None ∨
       ∃ a err,
         payload saved index = Some a ∧
         (execute (registry options) (command options) a
            (firstCalls options saved (take index (ids saved)) 0 w1).2).1 =
           Rejected err)).
  { intros e [->|[He|He]%elem_of_app]%elem_of_cons; [by left|..].
    - apply entryCalls_inv in He as (k&id&Hk&->). simpl.
      unfold entryCall. destruct (payload saved k) as [a|] eqn:Hpay.
      + right. left. by exists a.
      + right. right. exists id, k. rewrite Hpay. eauto.
    - apply catchRemovals_inv in He as (k&id&err&Hk&->).
      destruct (lookup_lt_is_Some_2 (ids saved) k) as [id' Hid].
      { pose proof (firstCalls_length options saved (ids saved) 0 w1) as Hlen.
        fold first in Hlen. rewrite <- Hlen. by eapply lookup_lt_Some. }
      pose proof (firstCalls_lookup options saved (ids saved) 0 w1 k id' Hid)
        as Hp. simpl in Hp. fold first in Hp. rewrite Hk in Hp.
      unfold pendingOf, entryCallee in Hp.
      right. right. exists id, k.
      destruct (payload saved k) as [a|]; [|done].
      injection Hp as -> Hex. split; [done|]. split; [done|]. right.
      by exists a, err. }
  split; [|split].
  - intros e He. by destruct (Hkind e He) as [->|[(a&->)|(id&k&->&_)]].
  - intros e key item He.
    by destruct (Hkind e He) as [->|[(a&->)|(id&k&->&_)]].
  - intros id He.
    destruct (Hkind _ He) as [?|[(a&?)|(id'&k&Heq&Hk&Hwhy)]]; try done.
    injection Heq as ->. by exists k.
Qed.

(** ** WidgetTracker: following the focus *)

(** X13. The slot the widget tracker connects to the focus tracker.
    When the focus moves to a tracked widget other than the current
    one, that widget becomes [currentWidget] and the change is
    announced once, on the instance tracker and then on the public
    [currentChanged].  In every other case nothing changes and nothing
    is emitted: when the focus is lost (the new value is [null]),
    [currentWidget] keeps the widget that last had focus; a widget that
    is not tracked is ignored; so is the widget that is current
    already. *)
Theorem focus_change_cases (d : nat) (newValue : option Obj) s :
  let s' := onFocusChanged (widgetSlots (S d)) newValue s in
  (newValue = None → s' = s) ∧
  (has newValue s = false → s' = s) ∧
  (newValue = currentWidget s → s' = s) ∧
  (∀ w, newValue = Some w →
     has (Some w) s = true →
     currentWidget s ≠ Some w →
     slotsConnected s = true →
     currentWidget s' = Some w ∧
     _instances s' = _instances s ∧
     world s' = world s ∧
     since s s' =
       [EmitCurrentChanged (Some w); HookOnCurrentChanged (Some w);
        EmitWidgetCurrentChanged (Some w)]).
Proof.
  unfold onFocusChanged, currentWidget, current, set_current.
  split; [|split; [|split]].
  - intros ->. case_bool_decide; [|done]. by case_bool_decide.
  - intros Hnot. rewrite Hnot. case_bool_decide; [|done].
    by case_bool_decide.
  - intros ->. by rewrite bool_decide_eq_false_2 by (by intros ?).
  - intros w -> Hhas Hne Hconn.
    rewrite bool_decide_eq_true_2 by congruence.
    rewrite bool_decide_eq_false_2 by done. rewrite Hhas.
    unfold emit_currentChanged, propagateCurrent. simpl. rewrite Hconn.
    simpl. repeat split; try done. by log_norm.
Qed.
(** ** What is never undone *)

Lemma neverUndone_refl s : neverUndone s s.
Proof. by repeat split. Qed.

Lemma neverUndone_trans s1 s2 s3 :
  neverUndone s1 s2 → neverUndone s2 s3 → neverUndone s1 s3.
Proof.
  intros (Hn1&Hd1&Hh1&Hr1&Hi1) (Hn2&Hd2&Hh2&Hr2&Hi2).
  split; [congruence|]. split; [auto|]. split; [|split; [auto|auto]].
  intros Hh. destruct (Hh1 Hh) as [Hh' Heq]. destruct (Hh2 Hh') as [? ?].
  split; [done|congruence].
Qed.

(** A write that leaves the namespace, the three flags, the restore
    configuration and the injected marks alone. *)
Lemma neverUndone_keep (s0 s s' : Sys W Any) :
  neverUndone s0 s →
  namespace s' = namespace s →
  _isDisposed s' = _isDisposed s →
  _hasRestored s' = _hasRestored s →
  _restore s' = _restore s →
  _restored s' = _restored s →
  injectedProperty s' = injectedProperty s →
  neverUndone s0 s'.
Proof.
  intros Hs Hn Hd Hh Hr Hrd Hi. eapply neverUndone_trans; [done|].
  unfold neverUndone, injectedProperty_get. rewrite Hn, Hd, Hh, Hr, Hrd, Hi.
  by repeat split.
Qed.

Section Monotone.

Context (s0 : Sys W Any) (slots : Slots W Any).
Context (Hslots : SlotsPreserve (neverUndone s0) slots).

(** Close a goal on a state that differs from a known one in other
    fields only. *)
Ltac keep := eapply neverUndone_keep; [eassumption|reflexivity..].

Lemma emit_added_neverUndone obj s :
  neverUndone s0 s → neverUndone s0 (emit_added slots obj s).
Proof using Hslots.
  intros Hs. unfold emit_added. simpl.
  destruct (slotsConnected s); [apply Hslots|]; keep.
Qed.

Lemma emit_currentChanged_neverUndone v s :
  neverUndone s0 s → neverUndone s0 (emit_currentChanged slots v s).
Proof using Hslots.
  intros Hs. unfold emit_currentChanged. simpl.
  destruct (slotsConnected s); [apply Hslots|]; keep.
Qed.

Lemma emit_updated_neverUndone obj s :
  neverUndone s0 s → neverUndone s0 (emit_updated slots obj s).
Proof using Hslots.
  intros Hs. unfold emit_updated. simpl.
  destruct (slotsConnected s); [apply Hslots|]; keep.
Qed.

Lemma add_neverUndone obj s :
  neverUndone s0 s → neverUndone s0 (add slots obj s).2.
Proof using Hslots.
  intros Hs. destruct (isDisposed (world s) obj) eqn:Hd.
  { unfold add. run_method. rewrite Hd. simpl. keep. }
  destruct (has (Some obj) s) eqn:Hhas.
  { unfold add. run_method. rewrite Hd. simpl. rewrite Hhas. simpl. keep. }
  rewrite add_unfold by done. cbv zeta.
  destruct (injectedProperty_get obj s); simpl; [keep|].
  destruct (_restore s) as [r|]; simpl;
    [|apply emit_added_neverUndone; keep].
  destruct (truthy _); simpl; [|apply emit_added_neverUndone; keep].
  destruct (conn_save _ _ _ _) as [[v|e] w1]; simpl;
    [apply emit_added_neverUndone; keep|keep].
Qed.

Lemma inject_neverUndone obj s :
  neverUndone s0 s → neverUndone s0 (inject slots obj s).2.
Proof using Hslots.
  intros Hs.
  change (inject slots obj s) with (add slots obj (injectedProperty_set obj true s)).
  apply add_neverUndone. eapply neverUndone_trans; [done|].
  repeat split; try done. intros o. unfold injectedProperty_get. simpl.
  destruct (decide (o = obj)) as [->|Hne].
  - by rewrite lookup_insert_eq.
  - by rewrite lookup_insert_ne.
Qed.

Lemma set_current_neverUndone (v : option Obj) s :
  neverUndone s0 s → neverUndone s0 (set_current slots v s).
Proof using Hslots.
  intros Hs. unfold set_current. case_bool_decide; [done|].
  destruct (has v s); [|done]. apply emit_currentChanged_neverUndone. keep.
Qed.

Lemma save_neverUndone obj s :
  neverUndone s0 s → neverUndone s0 (save slots obj s).2.
Proof using Hslots.
  intros Hs. unfold save. run_method.
  destruct (_restore s) as [r|]; [|done].
  destruct (has (Some obj) s); simpl; [|done].
  destruct (injectedProperty_get obj s); simpl; [done|].
  assert (Htail : ∀ s1, neverUndone s0 s1 →
    neverUndone s0
      (let (o, s') :=
         (if nonEmpty (restorationKey r obj s)
          then λ s2,
            let (o, s') :=
              issue (CallSave (restorationKey r obj s)
                       {| data := Some (args r (world s2) obj) |})
                    (conn_save (connector r) (restorationKey r obj s)
                       {| data := Some (args r (world s2) obj) |}) s2 in
            match o with
            | Fulfilled _ => (Fulfilled (), s')
            | Rejected e => (Rejected e, s')
            end
          else λ s2, (Fulfilled (), s2))
           (nameProperty_set obj (restorationKey r obj s) s1) in
       match o with
       | Fulfilled _ =>
           (if negb (String.eqb (nameProperty_get obj s)
                       (restorationKey r obj s))
            then λ s2, (Fulfilled (), emit_updated slots obj s2)
            else λ s2, (Fulfilled (), s2)) s'
       | Rejected e => (Rejected e, s')
       end).2).
  { intros s1 Hs1. destruct (nonEmpty _); simpl.
    - unfold issue. simpl.
      destruct (conn_save _ _ _ _) as [[v|e] w1]; simpl; [|keep].
      destruct (negb _); simpl; [apply emit_updated_neverUndone|]; keep.
    - destruct (negb _); simpl; [apply emit_updated_neverUndone|]; keep. }
  destruct (nonEmpty _ && negb _); simpl.
  - unfold issue at 1. simpl.
    destruct (conn_remove _ _ _) as [[v|e] w1]; simpl; [|keep].
    apply Htail. keep.
  - by apply Htail.
Qed.

Lemma restore_neverUndone options s :
  neverUndone s0 s → neverUndone s0 (restore options s).2.
Proof.
  intros Hs. destruct (_hasRestored s) eqn:Hfirst.
  { by rewrite restore_again. }
  assert (Hfresh : ∀ s', namespace s' = namespace s →
    _isDisposed s' = _isDisposed s →
    (_restored s = true → _restored s' = true) →
    injectedProperty s' = injectedProperty s →
    _hasRestored s' = true →
    neverUndone s0 s').
  { intros s' Hn Hd Hrd Hi Hh. destruct Hs as (Hn0&Hd0&Hh0&Hr0&Hi0).
    assert (Hnot : _hasRestored s0 = true → False).
    { intros Hh1. destruct (Hh0 Hh1). congruence. }
    unfold neverUndone, injectedProperty_get. rewrite Hn, Hd, Hi.
    split; [done|]. split; [done|].
    split; [intros ?; by destruct Hnot|]. split; [auto|]. apply Hi0. }
  destruct (restore_first options s Hfirst)
    as (calls&w&resolved&Hs1&Hres&_).
  rewrite Hs1. apply Hfresh; try done. simpl. intros Hrd.
  by destruct Hres as [->| ->].
Qed.

Lemma dispose_neverUndone s : neverUndone s0 s → neverUndone s0 (dispose s).
Proof.
  intros Hs. unfold dispose. destruct (_isDisposed s); [done|].
  eapply neverUndone_trans; [done|]. by repeat split.
Qed.

Lemma instanceDisposed_neverUndone obj s :
  neverUndone s0 s → neverUndone s0 (instanceDisposed slots obj s).
Proof using Hslots.
  intros Hs. unfold instanceDisposed. case_bool_decide; [|done].
  eapply neverUndone_keep; [|reflexivity..].
  unfold _onInstanceDisposed. cbv zeta.
  set (s1 := with_instances _ s).
  assert (Hs2 : neverUndone s0
    (if bool_decide (Some obj = _current s1)
     then emit_currentChanged slots (_current (with_current None s1))
            (with_current None s1)
     else s1)).
  { case_bool_decide; [apply emit_currentChanged_neverUndone|]; keep. }
  destruct (injectedProperty_get obj _); [done|].
  destruct (_restore _); [|done].
  destruct (nonEmpty _); [|done].
  unfold void, issue. destruct (conn_remove _ _ _) as [o w1]. simpl. keep.
Qed.

Lemma step_neverUndone s (op : Op W Any) :
  neverUndone s0 s → neverUndone s0 (step slots s op).
Proof using Hslots.
  intros Hs. destruct op; simpl.
  - by apply add_neverUndone.
  - by apply inject_neverUndone.
  - by apply set_current_neverUndone.
  - by apply restore_neverUndone.
  - by apply save_neverUndone.
  - by apply dispose_neverUndone.
  - by apply instanceDisposed_neverUndone.
  - keep.
Qed.

Lemma run_neverUndone (ops : list (Op W Any)) s :
  neverUndone s0 s → neverUndone s0 (run slots ops s).
Proof using Hslots.
  revert s. induction ops as [|op ops IH]; intros s Hs; simpl; [done|].
  by apply IH, step_neverUndone.
Qed.

End Monotone.

(** The slots of the widget tracker only log and assign [current]. *)
Lemma widgetSlots_neverUndone (s0 : Sys W Any) (depth : nat) :
  SlotsPreserve (neverUndone s0) (widgetSlots depth).
Proof.
  induction depth as [|d IH]; (split; [|split]); simpl; intros x s Hs.
  all: try (eapply neverUndone_keep; [eassumption|reflexivity..]).
  all: unfold propagateCurrent; cbv zeta.
  - destruct x, (focus_currentWidget (world s)); try done.
    all: eapply neverUndone_keep; [eassumption|reflexivity..].
  - destruct x, (focus_currentWidget (world s)).
    all: try (eapply neverUndone_keep; [eassumption|reflexivity..]).
    by apply set_current_neverUndone.
Qed.

(** X17. What no operation undoes.  Over every history of calls of
    [add], [inject], [restore], [save], [dispose] and of the setter of
    [current], of disposals of objects and of changes among the
    collaborators, from any state: the namespace stays; a disposed
    tracker stays disposed; once [restore] has been called, it stays
    called and the recorded configuration is never replaced; a resolved
    [restored] stays resolved; an injected object stays injected.  This
    holds for a tracker without listeners and for one wired to the
    slots of a widget tracker. *)
Theorem never_undone (ops : list (Op W Any)) s :
  neverUndone s (run noSlots ops s) ∧
  ∀ depth, neverUndone s (run (widgetSlots depth) ops s).
Proof.
  split; [|intros depth].
  - apply run_neverUndone; [apply noSlots_preserve|apply neverUndone_refl].
  - apply run_neverUndone;
      [apply widgetSlots_neverUndone|apply neverUndone_refl].
Qed.

(** X18. An injected object is never persisted.  From a state in which
    an object is marked as injected, after any history: [save] does
    nothing for it; its disposal asks the connector for no removal; and
    if it is added (again), [add] fulfils without calling the connector
    and without emitting [added]. *)
Theorem injected_never_persisted obj s (ops : list (Op W Any)) :
  injectedProperty_get obj s = true →
  let s' := run noSlots ops s in
  injectedProperty_get obj s' = true ∧
  save noSlots obj s' = (Fulfilled (), s') ∧
  filter isCall (since s' (_onInstanceDisposed noSlots obj s')) = [] ∧
  (isDisposed (world s') obj = false → has (Some obj) s' = false →
   let res := add noSlots obj s' in
   res.1 = Fulfilled () ∧ has (Some obj) res.2 = true ∧ since s' res.2 = []).
Proof.
  intros Hinj s'.
  assert (Hinj' : injectedProperty_get obj s' = true).
  { pose proof (run_neverUndone s noSlots (noSlots_preserve _) ops s
                  (neverUndone_refl s)) as (_&_&_&_&Hkeep).
    by apply Hkeep. }
  clearbody s'. split; [done|]. split; [|split].
  - apply save_skips. by right; right.
  - rewrite onInstanceDisposed_unfold. cbv zeta. rewrite Hinj'.
    case_bool_decide; by log_norm.
  - intros Hd Hhas res. subst res. rewrite add_unfold by done. cbv zeta.
    rewrite Hinj'. simpl. split; [done|]. split.
    + unfold has. simpl. apply JSSet_has_Some, elem_of_app. right.
      apply list_elem_of_here.
    + by log_norm.
Qed.

(** ** WidgetTracker: the class *)

Section Widget.

Context `{!FocusTrackerOps W}.

Implicit Types (t : WidgetTracker.State W Any) (widget : Obj).

Lemma set_current_widget_instances (d : nat) (v : option Obj) s :
  _instances (set_current (widgetSlots d) v s) = _instances s.
Proof.
  revert v s. induction d as [|d IH]; intros v s.
  all: unfold set_current; case_bool_decide; [done|].
  all: destruct (has v s); [|done].
  all: unfold emit_currentChanged, propagateCurrent; simpl.
  all: destruct (slotsConnected s); [|done].
  all: destruct v as [x|]; [done|].
  all: destruct (focus_currentWidget (world s)) as [f|]; [|done].
  - done.
  - by rewrite IH.
Qed.

(** Assigning a tracked widget to [current] makes it current. *)
Lemma set_current_widget_tracked (d : nat) widget s :
  has (Some widget) s = true →
  _current (set_current (widgetSlots d) (Some widget) s) = Some widget ∧
  _instances (set_current (widgetSlots d) (Some widget) s) = _instances s.
Proof.
  intros Hhas. unfold set_current. case_bool_decide; [done|].
  rewrite Hhas. unfold emit_currentChanged, propagateCurrent. simpl.
  destruct (slotsConnected s); [|done]. by destruct d.
Qed.

(** X14. [WidgetTracker.add].  The method fulfils exactly when the
    instance tracker's [add] does.  Whenever [add] fulfils: if the
    widget is tracked when the method resumes, it is tracked and is the
    current widget afterwards, whatever the focus tracker did on
    registering it and whether or not the tracker was disposed; if it
    is not tracked when the method resumes (it was disposed in the
    meantime), the resumption changes nothing, so that [add] fulfils
    with the widget neither tracked nor made current.  When the widget
    is already tracked, [add] rejects and the tracked set at the [await]
    is the one before the call. *)
Theorem widget_add_makes_current widget
    (meanwhile : WidgetTracker.State W Any → WidgetTracker.State W Any) t :
  let started := WidgetTracker.add_start widget t in
  let resumed := meanwhile started.2 in
  let res := WidgetTracker.add widget meanwhile t in
  (res.1 = Fulfilled () ↔ started.1 = Fulfilled ()) ∧
  (res.1 = Fulfilled () →
     (WidgetTracker.has (Some widget) resumed = true →
        WidgetTracker.currentWidget res.2 = Some widget ∧
        WidgetTracker.has (Some widget) res.2 = true) ∧
     (WidgetTracker.has (Some widget) resumed = false → res.2 = resumed)) ∧
  (WidgetTracker.has (Some widget) t = true →
     (∃ e, res.1 = Rejected e) ∧
     _instances (WidgetTracker._instanceTracker started.2) =
       _instances (WidgetTracker._instanceTracker t)).
Proof.
  unfold WidgetTracker.add, WidgetTracker.add_start,
    WidgetTracker.add_resume, WidgetTracker.currentWidget,
    WidgetTracker.has, currentWidget, current.
  set (t1 := WidgetTracker.focusTracker_add widget t).
  assert (Ht1 : _instances (WidgetTracker._instanceTracker t1) =
                _instances (WidgetTracker._instanceTracker t)).
  { subst t1. unfold WidgetTracker.focusTracker_add.
    destruct (focus_add _ _) as [w [newValue|]]; [|done].
    unfold WidgetTracker.focusChanged. simpl.
    destruct (WidgetTracker._isDisposed t); [done|]. simpl.
    unfold onFocusChanged. case_bool_decide; [|done].
    unfold WidgetTracker.slots. by rewrite set_current_widget_instances. }
  clearbody t1. set (s1 := WidgetTracker._instanceTracker t1) in *.
  unfold WidgetTracker.slots.
  split; [|split].
  - by destruct (add (widgetSlots 1) widget s1) as [[[]|e] s2].
  - destruct (add (widgetSlots 1) widget s1) as [[[]|e] s2];
      cbn [fst snd WidgetTracker._instanceTracker
           WidgetTracker.with_instanceTracker] in *; [|done].
    intros _. set (t2 := meanwhile _). split.
    + intros Hstill.
      destruct (set_current_widget_tracked 1 widget _ Hstill) as [Hc Hi].
      split; [done|]. unfold has in *. by rewrite Hi.
    + intros Hgone. unfold set_current. rewrite Hgone.
      case_bool_decide; by destruct t2.
  - intros Hhas. unfold has in Hhas. rewrite <- Ht1 in Hhas.
    destruct (add_rejects_tracked (widgetSlots 1) widget s1 Hhas)
      as (e&s2&Hres&Hsame).
    rewrite Hres.
    cbn [fst snd WidgetTracker._instanceTracker
         WidgetTracker.with_instanceTracker].
    split; [by exists e|by rewrite Hsame].
Qed.

(** X15. [WidgetTracker.dispose] on a tracker that is not yet disposed
    disposes the instance tracker and the focus tracker: afterwards no
    widget is tracked, [currentWidget] is [null], and nothing has been
    emitted, not even a public [currentChanged] for the widget that was
    current.  From then on a change of focus no longer reaches the
    tracker, and a second [dispose] changes nothing. *)
Theorem widget_dispose_spec t :
  let t' := WidgetTracker.dispose t in
  WidgetTracker.dispose t' = t' ∧
  (WidgetTracker._isDisposed t = false →
   _isDisposed (WidgetTracker._instanceTracker t) = false →
     WidgetTracker._isDisposed t' = true ∧
     WidgetTracker.currentWidget t' = None ∧
     WidgetTracker.size t' = 0 ∧
     (∀ o, WidgetTracker.has o t' = false) ∧
     log (WidgetTracker._instanceTracker t') =
       log (WidgetTracker._instanceTracker t) ∧
     world (WidgetTracker._instanceTracker t') =
       focus_dispose (world (WidgetTracker._instanceTracker t)) ∧
     ∀ newValue, WidgetTracker.focusChanged newValue t' = t').
Proof.
  unfold WidgetTracker.dispose.
  destruct (WidgetTracker._isDisposed t) eqn:Hdisp; cbv zeta.
  { rewrite Hdisp. by split. }
  split; [done|]. intros _ Hinner.
  unfold WidgetTracker.currentWidget, WidgetTracker.size, WidgetTracker.has,
    WidgetTracker.focusChanged, currentWidget, current, size, has, dispose.
  rewrite Hinner. simpl. repeat split; try done. by intros [o|].
Qed.

(** A property every write of the instance tracker keeps is kept by
    every step of a widget tracker, as a property of the instance
    tracker it owns. *)
Lemma widget_step_preserves (P : Sys W Any → Prop) `{!TrackerInvariant P}
    t (op : WidgetTracker.Op W Any) :
  P (WidgetTracker._instanceTracker t) →
  P (WidgetTracker._instanceTracker (WidgetTracker.step t op)).
Proof.
  pose proof (widgetSlots_preserve P 1) as Hslots.
  assert (Hfocus : ∀ v t, P (WidgetTracker._instanceTracker t) →
    P (WidgetTracker._instanceTracker (WidgetTracker.focusChanged v t))).
  { intros v t0 H0. unfold WidgetTracker.focusChanged.
    destruct (WidgetTracker._isDisposed t0); [done|].
    cbn [WidgetTracker._instanceTracker WidgetTracker.with_instanceTracker].
    unfold onFocusChanged. case_bool_decide; [|done].
    by apply (set_current_preserves P). }
  intros Ht.
  destruct op as [widget|widget|widget|options|widget| |v|widget|f];
    unfold WidgetTracker.step.
  - unfold WidgetTracker.add_start.
    set (t1 := WidgetTracker.focusTracker_add widget t).
    assert (Ht1 : P (WidgetTracker._instanceTracker t1)).
    { subst t1. unfold WidgetTracker.focusTracker_add.
      destruct (focus_add _ _) as [w [newValue|]].
      - apply Hfocus. by apply inv_world.
      - by apply inv_world. }
    clearbody t1.
    pose proof (add_preserves P _ Hslots widget _ Ht1) as Hadd.
    by destruct (add _ _ _) as [o s].
  - unfold WidgetTracker.add_resume.
    cbn [WidgetTracker._instanceTracker WidgetTracker.with_instanceTracker].
    by apply (set_current_preserves P).
  - unfold WidgetTracker.inject.
    pose proof (inject_preserves P _ Hslots widget _ Ht) as Hinj.
    by destruct (inject _ _ _) as [o s].
  - unfold WidgetTracker.restore.
    pose proof (restore_preserves P options _ Ht) as Hres.
    by destruct (restore _ _) as [o s].
  - unfold WidgetTracker.save.
    pose proof (save_preserves P _ Hslots widget _ Ht) as Hsave.
    by destruct (save _ _ _) as [o s].
  - unfold WidgetTracker.dispose.
    destruct (WidgetTracker._isDisposed t); [done|].
    cbn [WidgetTracker._instanceTracker]. cbv zeta.
    by apply inv_world, (dispose_preserves P).
  - by apply Hfocus.
  - by apply (instanceDisposed_preserves P _ Hslots).
  - by apply inv_world.
Qed.

(** X16. In every state a widget tracker can reach from its
    construction by calls of [add], [inject], [restore], [save] and
    [dispose], by changes of focus, by disposals of widgets and by
    changes among the collaborators, [currentWidget] is [null] or a
    tracked widget, and no widget is tracked twice. *)
Theorem widget_current_tracked (ns : string) (w : W)
    (ops : list (WidgetTracker.Op W Any)) :
  let t := WidgetTracker.run ops (WidgetTracker.new ns w) in
  (WidgetTracker.currentWidget t = None ∨
   WidgetTracker.has (WidgetTracker.currentWidget t) t = true) ∧
  NoDup (_instances (WidgetTracker._instanceTracker t)).
Proof.
  assert (Hrun : ∀ (P : Sys W Any → Prop), TrackerInvariant P →
    ∀ ops t, P (WidgetTracker._instanceTracker t) →
    P (WidgetTracker._instanceTracker (WidgetTracker.run ops t))).
  { intros P HP. induction ops0 as [|op ops0 IH]; intros t Ht; [done|].
    apply IH. by apply widget_step_preserves. }
  split.
  - apply (Hrun current_ok current_ok_invariant ops). by left.
  - apply (Hrun (λ s, NoDup (_instances s)) NoDup_invariant ops).
    apply NoDup_nil_2.
Qed.

(** X19. What a successful [WidgetTracker.add] announces, and when.
    For a tracker whose slots are connected and a live widget that is
    neither tracked nor injected, with nothing to persist, and a focus
    tracker that on registering the widget reports no change to a
    tracked widget.  Up to its [await] the method announces the widget
    twice, by the instance tracker's [added] and by its public relay;
    the widget is then tracked, [current] is still the one before the
    call, and the method is bound to fulfil.  When the method resumes
    with the widget still tracked, not current, and the slots
    connected, the widget becomes the current widget and three more
    effects follow: the instance tracker's [currentChanged], the
    [onCurrentChanged] hook and the public [currentChanged].  When it
    resumes with the widget no longer tracked (it was disposed in the
    meantime), nothing more happens: [add] fulfils having announced the
    widget without making it current. *)
Theorem widget_add_announces widget
    (meanwhile : WidgetTracker.State W Any → WidgetTracker.State W Any) t :
  let s := WidgetTracker._instanceTracker t in
  let registered := focus_add widget (world s) in
  slotsConnected s = true →
  (∀ v, registered.2 = Some v → has v s = false) →
  isDisposed registered.1 widget = false →
  has (Some widget) s = false →
  injectedProperty_get widget s = false →
  (∀ r, _restore s = Some r → truthy (name r registered.1 widget) = false) →
  let started := WidgetTracker.add_start widget t in
  let resumed := meanwhile started.2 in
  let res := WidgetTracker.add widget meanwhile t in
  (started.1 = Fulfilled () ∧ res.1 = Fulfilled ()) ∧
  (WidgetTracker.has (Some widget) started.2 = true ∧
   WidgetTracker.currentWidget started.2 = WidgetTracker.currentWidget t ∧
   slotsConnected (WidgetTracker._instanceTracker started.2) = true ∧
   world (WidgetTracker._instanceTracker started.2) = registered.1 ∧
   since s (WidgetTracker._instanceTracker started.2) =
     [EmitAdded widget; EmitWidgetAdded widget]) ∧
  (WidgetTracker.has (Some widget) resumed = true →
   WidgetTracker.currentWidget resumed ≠ Some widget →
   slotsConnected (WidgetTracker._instanceTracker resumed) = true →
     WidgetTracker.currentWidget res.2 = Some widget ∧
     since (WidgetTracker._instanceTracker resumed)
           (WidgetTracker._instanceTracker res.2) =
       [EmitCurrentChanged (Some widget); HookOnCurrentChanged (Some widget);
        EmitWidgetCurrentChanged (Some widget)]) ∧
  (WidgetTracker.has (Some widget) resumed = false → res.2 = resumed).
Proof.
  intros s registered Hconn Hfocus Hd Hhas Hinj Hname started resumed res.
  set (s1 := with_world registered.1 s).
  assert (Ht1 : WidgetTracker.focusTracker_add widget t =
                WidgetTracker.with_instanceTracker s1 t).
  { unfold WidgetTracker.focusTracker_add. fold s. fold registered.
    subst s1. destruct registered as [w1 [v|]]; [|done]. simpl in *.
    unfold WidgetTracker.focusChanged. simpl.
    destruct (WidgetTracker._isDisposed t) eqn:Hdisp; [done|].
    unfold WidgetTracker.with_instanceTracker. simpl. f_equal.
    unfold onFocusChanged. case_bool_decide; [|done].
    unfold set_current. case_bool_decide; [done|].
    replace (has v (with_world w1 s)) with (has v s) by done.
    by rewrite (Hfocus v eq_refl). }
  assert (Hstart : started =
    (Fulfilled (),
     WidgetTracker.with_instanceTracker
       (logEvent (EmitWidgetAdded widget)
          (logEvent (EmitAdded widget)
             (disposed_connect widget
                (with_instances (_instances s ++ [widget]) s1)))) t)).
  { subst started. unfold WidgetTracker.add_start. rewrite Ht1.
    cbn [WidgetTracker._instanceTracker WidgetTracker.with_instanceTracker].
    unfold WidgetTracker.slots.
    rewrite add_unfold by done. cbv zeta.
    replace (injectedProperty_get widget s1) with false by done.
    assert (Hadded :
      emit_added (widgetSlots 1) widget
        (disposed_connect widget
           (with_instances (_instances s1 ++ [widget]) s1)) =
      logEvent (EmitWidgetAdded widget)
        (logEvent (EmitAdded widget)
           (disposed_connect widget
              (with_instances (_instances s ++ [widget]) s1)))).
    { unfold emit_added. simpl. by rewrite Hconn. }
    replace (_restore s1) with (_restore s) by done.
    replace (world s1) with registered.1 by done.
    destruct (_restore s) as [r|] eqn:Hr; [rewrite (Hname r eq_refl)|].
    all: by rewrite Hadded. }
  assert (Hres : res =
    (Fulfilled (), WidgetTracker.add_resume widget resumed)).
  { subst res resumed. unfold WidgetTracker.add. fold started.
    by rewrite Hstart. }
  rewrite Hres. clearbody resumed. rewrite Hstart.
  cbn [fst snd]. split; [done|]. split; [|split].
  - unfold WidgetTracker.has, WidgetTracker.currentWidget, has. simpl.
    repeat split; try done.
    + apply JSSet_has_Some, elem_of_app. right. apply list_elem_of_here.
    + by log_norm.
  - unfold WidgetTracker.has, WidgetTracker.currentWidget,
      WidgetTracker.add_resume, WidgetTracker.slots, currentWidget, current.
    cbn [WidgetTracker._instanceTracker WidgetTracker.with_instanceTracker].
    set (s2 := WidgetTracker._instanceTracker resumed).
    intros Hstill Hcur Hconn2. unfold set_current.
    rewrite bool_decide_eq_false_2 by done. rewrite Hstill.
    unfold emit_currentChanged, propagateCurrent. simpl. rewrite Hconn2.
    simpl. split; [done|]. by log_norm.
  - unfold WidgetTracker.has, WidgetTracker.add_resume.
    intros Hgone. unfold set_current. rewrite Hgone.
    case_bool_decide; by destruct resumed.
Qed.

End Widget.

End Properties.

(** * Examples

    The theorems above, run on the example states. *)

(** Discharge the hypotheses of [H] by evaluation. *)
Ltac evaluate_hyps H :=
  repeat (cbv zeta in H;
          match type of H with
          | ?A → _ =>
              let pf := fresh in
              assert (pf : A)
                by (intros; vm_compute; first [reflexivity|discriminate]);
              specialize (H pf); clear pf
          end).

(** Close the goal with [H], up to evaluation. *)
Ltac conclude H :=
  evaluate_hyps H; vm_compute in H; vm_compute; exact H.

(** Adding the disposed object 9, or object 1 a second time, is refused
    and the tracked set stays as it was. *)
Lemma add_rejects_witness :
  (let r := add noSlots 9 demo_tracking in
   (∃ e, r.1 = Rejected e) ∧
   _instances r.2 = _instances demo_tracking ∧
   size r.2 = size demo_tracking ∧
   (∀ o, has o r.2 = has o demo_tracking)) ∧
  (let r := add noSlots 1 demo_tracking in
   (∃ e, r.1 = Rejected e) ∧
   _instances r.2 = _instances demo_tracking ∧
   size r.2 = size demo_tracking ∧
   (∀ o, has o r.2 = has o demo_tracking)).
Proof.
  split.
  - apply (add_rejects_disposed_or_tracked noSlots 9 demo_tracking).
    left. reflexivity.
  - apply (add_rejects_disposed_or_tracked noSlots 1 demo_tracking).
    right. reflexivity.
Defined.

(** Making the tracked object 1 current updates the pointer and emits
    one event. *)
Lemma set_current_witness :
  let s' := set_current noSlots (Some 1) demo_tracking in
  _current s' = Some 1 ∧
  log s' = log demo_tracking ++ [EmitCurrentChanged (Some 1)] ∧
  _instances s' = _instances demo_tracking.
Proof.
  destruct (set_current_cases (Some 1) demo_tracking) as (_&_&Hset).
  apply Hset; [reflexivity|discriminate].
Defined.

(** Disposing the current, named object 1 clears [current] with one
    event and asks for the removal of its entry. *)
Lemma onInstanceDisposed_witness :
  let s' := _onInstanceDisposed noSlots 1 demo_current in
  (_current s' = None ∧
   filter isCurrentChanged (since demo_current s') = [EmitCurrentChanged None]) ∧
  (filter isCall (since demo_current s') = [CallRemove "nb:a.ipynb"] ∧
   world s' =
   (conn_remove (connector demo_options) "nb:a.ipynb" (world demo_current)).2).
Proof.
  destruct (onInstanceDisposed_spec 1 demo_current) as (_&Hcur&_&_&Hcall&_).
  split.
  - apply Hcur. reflexivity.
  - apply (Hcall eq_refl demo_options eq_refl). discriminate.
Defined.

(** With a connector that cannot write the entry of object 2, [add]
    rejects and object 2 is tracked all the same. *)
Lemma add_rejected_save_witness :
  let res := add noSlots 2 demo_readonly in
  res.1 = Rejected (JSError "save failed") ∧
  has (Some 2) res.2 = true ∧
  find (λ o, bool_decide (o = 2)) res.2 = Some 2 ∧
  2 ∈ filter_instances (λ _, true) res.2 ∧
  2 ∈ disposedConnected res.2 ∧
  nameProperty_get 2 res.2 = "nb:b.ipynb" ∧
  since demo_readonly res.2 =
    [CallSave "nb:b.ipynb" {| data := Some "b.ipynb" |}] ∧
  filter isAdded (since demo_readonly res.2) = [].
Proof.
  apply (add_rejected_save_keeps_instance 2 demo_readonly
           (hostOptions ["nb:b.ipynb"] [] []) "b.ipynb"
           (JSError "save failed") (world demo_readonly));
    try reflexivity.
  discriminate.
Defined.

(** A second [restore] is refused, here after an [add] in between. *)
Lemma restore_at_most_once_witness :
  let s1 := (restore demo_options demo_new).2 in
  let s2 := run noSlots [OpAdd 1] s1 in
  _restore s1 = Some demo_options ∧
  _hasRestored s1 = true ∧
  restore demo_stuck_options s2 =
  (Rejected (JSError "Instance tracker has already restored"), s2).
Proof.
  destruct (restore_at_most_once demo_options demo_new eq_refl)
    as (Hr&Hh&_&Hagain).
  split; [exact Hr|]. split; [exact Hh|].
  exact (Hagain [OpAdd 1] demo_stuck_options).
Defined.




(** C4 fails as stated: object 1 is tracked, not injected, configured,
    recorded under one name and now computes another; the removal of the
    old entry rejects, so the name tag is not updated and no [updated] is
    emitted although the name changed. *)
Lemma save_stuck_counterexample :
  let s := demo_renamed_stuck in
  let r := hostOptions [] ["nb:a.ipynb"] [] in
  let res := save noSlots 1 s in
  (_restore s = Some r ∧ has (Some 1) s = true ∧
   injectedProperty_get 1 s = false) ∧
  (nameProperty_get 1 s = "nb:a.ipynb" ∧
   restorationKey r 1 s = "nb:c.ipynb") ∧
  res.1 = Rejected (JSError "remove failed") ∧
  nameProperty_get 1 res.2 = "nb:a.ipynb" ∧
  filter isUpdated (since s res.2) = [].
Proof. vm_compute. repeat split. Qed.

(** The same renaming with a connector that works: the old entry is
    removed, then the new one written, then [updated] emitted. *)
Lemma save_spec_witness :
  let s := demo_renamed in
  let res := save noSlots 1 s in
  res.1 = Fulfilled () ∧
  nameProperty_get 1 res.2 = "nb:c.ipynb" ∧
  since s res.2 =
    [CallRemove "nb:a.ipynb";
     CallSave "nb:c.ipynb" {| data := Some "c.ipynb" |};
     EmitUpdated 1].
Proof.
  destruct (save_spec 1 demo_renamed) as [_ Hsave].
  specialize (Hsave demo_options). evaluate_hyps Hsave.
  destruct Hsave as (Hok&_). conclude Hok.
Defined.

(** A second [save] of the same name emits nothing. *)
Example save_twice_silent :
  let s := (save noSlots 1 demo_renamed).2 in
  since s (save noSlots 1 s).2 =
    [CallSave "nb:c.ipynb" {| data := Some "c.ipynb" |}].
Proof. vm_compute. reflexivity. Qed.

(** C9. The claim fails on the code, by a slip of the slot.  Widget 1 is
    injected and then added (the instance tracker refuses it, the focus
    tracker has registered it and reports it as focused): it is the
    only tracked widget, the current one and the focused one.  When it
    is disposed, its disposal reaches the instance tracker first: the
    underlying [current] becomes [null] and the instance tracker emits
    [currentChanged] with [null] while the focus tracker still reports
    widget 1.  The slot assigns widget 1 to [current] and returns, but
    the setter ignores a widget that is no longer tracked: [current] is
    not re-asserted, [currentWidget] ends [null], and the public
    [currentChanged] is not emitted, although the last tracked widget
    was disposed; it is not emitted either once the focus tracker has
    let go of the widget and reported it.  On the sibling path, where
    the focus tracker lets go of the widget before the instance tracker
    hears of the disposal, the public [currentChanged] is emitted with
    [null]. *)
Theorem widget_last_disposed_silent :
  let t := demo_widget_injected in
  let s := WidgetTracker._instanceTracker t in
  let t1 := WidgetTracker.step t (WidgetTracker.OpWidgetDisposed 1) in
  let s1 := WidgetTracker._instanceTracker t1 in
  let t2 :=
    WidgetTracker.run
      [WidgetTracker.OpCollaborators eager_focus_lost;
       WidgetTracker.OpFocusChanged None] t1 in
  let sibling :=
    WidgetTracker.run
      [WidgetTracker.OpCollaborators eager_focus_lost;
       WidgetTracker.OpFocusChanged None;
       WidgetTracker.OpWidgetDisposed 1] t in
  (WidgetTracker.currentWidget t = Some 1 ∧
   _instances s = [1] ∧
   focus_currentWidget (world s) = Some 1) ∧
  (filter isCurrentChanged (since s s1) = [EmitCurrentChanged None] ∧
   focus_currentWidget (world s1) = Some 1) ∧
  (WidgetTracker.currentWidget t1 = None ∧
   WidgetTracker.size t1 = 0 ∧
   filter isWidgetCurrentChanged (since s s1) = []) ∧
  (WidgetTracker.currentWidget t2 = None ∧
   filter isWidgetCurrentChanged
     (since s (WidgetTracker._instanceTracker t2)) = []) ∧
  (WidgetTracker.currentWidget sibling = None ∧
   filter isWidgetCurrentChanged
     (since s (WidgetTracker._instanceTracker sibling)) =
     [EmitWidgetCurrentChanged None]).
Proof. vm_compute. repeat split. Qed.

(** The same on the instance tracker alone: widget 1 is current and
    focused; its [disposed] signal was connected to the instance tracker
    by [inject], ahead of any subscription of the focus tracker.  When
    it is disposed the underlying [current] becomes [null] while the
    focus tracker still reports widget 1, yet [currentWidget] ends
    [null] and the public signal is not emitted. *)
Lemma widget_reassert_counterexample :
  let s := demo_focused in
  let s' := instanceDisposed (widgetSlots 1) 1 s in
  currentWidget s = Some 1 ∧
  filter isCurrentChanged (since s s') = [EmitCurrentChanged None] ∧
  focus_currentWidget (world s') = Some 1 ∧
  currentWidget s' = None ∧
  filter isWidgetCurrentChanged (since s s') = [].
Proof. vm_compute. repeat split. Qed.

(** Widget 1 is tracked and focused: an emission of [null] makes it the
    current widget again; and so does the disposal of the current
    widget 2. *)
Lemma widget_reasserts_focused_witness :
  (let s := demo_focus_only in
   let s' := emit_currentChanged (widgetSlots 1) None s in
   currentWidget s' = Some 1 ∧
   since s s' =
     [EmitCurrentChanged None; EmitCurrentChanged (Some 1);
      HookOnCurrentChanged (Some 1); EmitWidgetCurrentChanged (Some 1)]) ∧
  (let s := demo_two_widgets in
   let s' := _onInstanceDisposed (widgetSlots 1) 2 s in
   currentWidget s' = Some 1 ∧
   filter isWidgetCurrentChanged (since s s') =
     [EmitWidgetCurrentChanged (Some 1)]).
Proof.
  split.
  - pose proof (widget_reasserts_focused 0 demo_focus_only 1) as Hslot.
    evaluate_hyps Hslot. destruct Hslot as [Hemit _].
    evaluate_hyps Hemit. destruct Hemit as [Hin _]. conclude Hin.
  - pose proof (widget_reasserts_focused 0 demo_two_widgets 1) as Hslot.
    evaluate_hyps Hslot. destruct Hslot as [_ Hdisposed].
    specialize (Hdisposed 2). evaluate_hyps Hdisposed.
    destruct Hdisposed as [Hin _]. conclude Hin.
Defined.
(** A live object without a name in a configured tracker is added with
    one [added] signal and no call. *)
Lemma add_accepts_witness :
  let res := add noSlots 3 demo_tracking in
  res.1 = Fulfilled () ∧
  _instances res.2 = [1; 3] ∧
  _current res.2 = None ∧
  since demo_tracking res.2 = [EmitAdded 3].
Proof.
  pose proof (add_accepts_without_persisting 3 demo_tracking) as Hadd.
  evaluate_hyps Hadd.
  assert (Hname : ∀ r, _restore demo_tracking = Some r →
                       truthy (name r (world demo_tracking) 3) = false).
  { intros r [= <-]. reflexivity. }
  specialize (Hadd Hname). cbv zeta in Hadd.
  destruct Hadd as (Hok&Hi&_&_&Hc&_&_&Hlog).
  split; [exact Hok|]. split; [exact Hi|]. split; [exact Hc|exact Hlog].
Defined.

(** Object 2 is added to a configured tracker: its arguments are written
    under its key, then [added] is emitted. *)
Lemma add_persists_witness :
  let res := add noSlots 2 demo_tracking in
  res.1 = Fulfilled () ∧
  _instances res.2 = [1; 2] ∧
  nameProperty_get 2 res.2 = "nb:b.ipynb" ∧
  since demo_tracking res.2 =
    [CallSave "nb:b.ipynb" {| data := Some "b.ipynb" |}; EmitAdded 2].
Proof.
  pose proof (add_persists_named 2 demo_tracking demo_options "b.ipynb"
                "saved"
                (conn_save (connector demo_options) "nb:b.ipynb"
                   {| data := Some "b.ipynb" |} (world demo_tracking)).2)
    as Hadd.
  evaluate_hyps Hadd. destruct Hadd as (Hok&Hi&_&Hn&_&_&Hlog).
  split; [exact Hok|]. split; [exact Hi|]. split; [exact Hn|exact Hlog].
Defined.

(** Injecting widget 1 into a fresh tracker wired to the widget slots
    tracks it without a trace in the log. *)
Lemma inject_tracks_witness :
  let res := inject (widgetSlots 1) 1 demo_new in
  res.1 = Fulfilled () ∧
  _instances res.2 = [1] ∧
  injectedProperty_get 1 res.2 = true ∧
  log res.2 = [].
Proof.
  pose proof (inject_tracks_silently (widgetSlots 1) 1 demo_new) as Hinj.
  evaluate_hyps Hinj. destruct Hinj as (Hok&Hi&Hm&_&_&_&_&Hlog).
  split; [exact Hok|]. split; [exact Hi|]. split; [exact Hm|exact Hlog].
Defined.

(** Object 1 was added under a persisted name; injecting it is refused
    and marks it: its disposal no longer removes its entry. *)
Lemma inject_rejected_witness :
  let res := inject noSlots 1 demo_tracking in
  nameProperty_get 1 demo_tracking = "nb:a.ipynb" ∧
  res.1 = Rejected (JSError "This object already exists in the tracker.") ∧
  injectedProperty_get 1 res.2 = true ∧
  save noSlots 1 res.2 = (Fulfilled (), res.2) ∧
  filter isCall (since res.2 (_onInstanceDisposed noSlots 1 res.2)) = [].
Proof.
  pose proof (inject_rejected_still_marks noSlots 1 demo_tracking) as Hinj.
  evaluate_hyps Hinj. destruct Hinj as (Hrej&_&_&Hm&Hsave&Hdisp).
  split; [reflexivity|]. split; [exact Hrej|]. split; [exact Hm|].
  split; [exact Hsave|exact Hdisp].
Defined.

(** Disposing a tracker whose current object is 1 empties it without an
    event. *)
Lemma dispose_witness :
  let s' := dispose demo_current in
  _current demo_current = Some 1 ∧
  _current s' = None ∧
  size s' = 0 ∧
  log s' = log demo_current ∧
  instanceDisposed noSlots 1 s' = s'.
Proof.
  destruct (dispose_clears_silently noSlots demo_current) as [_ Hfirst].
  evaluate_hyps Hfirst.
  destruct Hfirst as (_&_&Hsize&_&Hc&Hlog&_&_&_&Hgone&_).
  split; [reflexivity|]. split; [exact Hc|]. split; [exact Hsize|].
  split; [exact Hlog|exact (Hgone 1)].
Defined.

(** Object 2 added to a disposed tracker is tracked. *)
Lemma add_after_dispose_witness :
  let res := add (widgetSlots 1) 2 (dispose demo_tracking) in
  _instances res.2 = [2] ∧
  _isDisposed res.2 = true ∧
  _instances (instanceDisposed (widgetSlots 1) 2 res.2) = [].
Proof.
  pose proof (add_after_dispose (widgetSlots 1) 2 demo_tracking) as Hadd.
  evaluate_hyps Hadd. destruct Hadd as (_&Hi&_&_&Hd&_&Hgone).
  split; [exact Hi|]. split; [exact Hd|exact Hgone].
Defined.

(** Object 2 is added, then disposed: its entry is written, then
    removed, and the tracked set is back to object 1. *)
Lemma add_then_disposed_witness :
  let s1 := (add noSlots 2 demo_tracking).2 in
  let s2 := instanceDisposed noSlots 2 s1 in
  _instances s2 = _instances demo_tracking ∧
  since demo_tracking s2 =
    [CallSave "nb:b.ipynb" {| data := Some "b.ipynb" |}; EmitAdded 2;
     CallRemove "nb:b.ipynb"].
Proof.
  pose proof (add_then_disposed_roundtrip 2 demo_tracking demo_options
                "b.ipynb" "saved"
                (conn_save (connector demo_options) "nb:b.ipynb"
                   {| data := Some "b.ipynb" |} (world demo_tracking)).2)
    as Hround.
  evaluate_hyps Hround. destruct Hround as (_&Hi&_&_&_&Hlog&_).
  split; [exact Hi|exact Hlog].
Defined.

(** The gate rejects: [restore] stops after the listing, and cannot be
    called again. *)
Lemma restore_fails_witness :
  let res := restore demo_gated_options demo_new in
  res.1 = Rejected (JSError "gate closed") ∧
  since demo_new res.2 = [CallList "nb"] ∧
  _restored res.2 = false ∧
  restore demo_options res.2 =
  (Rejected (JSError "Instance tracker has already restored"), res.2).
Proof.
  pose proof (restore_fails_before_entries demo_gated_options demo_new
                eq_refl) as Hfail.
  cbv zeta in Hfail.
  destruct Hfail as ((e&Hrej&Hwhich)&_&Hlog&_&_&_&Hrd&_&Hagain).
  { right. reflexivity. }
  assert (He : e = JSError "gate closed").
  { destruct Hwhich as [Hl|Hg]; [discriminate Hl|].
    apply elem_of_cons in Hg as [Hg|Hg]; [discriminate Hg|].
    apply elem_of_cons in Hg as [Hg|Hg]; [by injection Hg|].
    by apply elem_of_nil in Hg. }
  rewrite He in Hrej.
  split; [exact Hrej|]. split; [exact Hlog|]. split; [exact Hrd|].
  exact (Hagain demo_options).
Defined.

(** The listing and the gate both reject: [restore] rejects with the
    reason of the one that rejected first, the gate's on a host whose
    connector answers late, the listing's on one whose connector answers
    at once. *)
Example restore_rejects_with_earliest :
  (restore demo_offline_options (new "nb" demo_late_host)).1 =
    Rejected (JSError "gate closed") ∧
  (restore demo_offline_options demo_new).1 =
    Rejected (JSError "list failed").
Proof. split; reflexivity. Qed.

(** Of the three entries, the first (its command fails) and the second
    (no payload) are removed; the third, whose command fulfils, is
    not. *)
Lemma restore_removes_only_stale_witness :
  let res := restore demo_options demo_new in
  (∀ e, e ∈ since demo_new res.2 → isCall e = true) ∧
  CallRemove "nb:z" ∉ since demo_new res.2.
Proof.
  destruct (restore_removes_only_stale demo_options demo_new demo_saved
              demo_host eq_refl eq_refl eq_refl) as (Hcalls&_&Hstale).
  split; [exact Hcalls|]. intros Hin.
  destruct (Hstale "nb:z" Hin) as (index&Hid&Hwhy).
  destruct index as [|[|[|index]]]; try discriminate Hid.
  destruct Hwhy as [Hnone|(a&err&Hpay&Hex)]; [discriminate Hnone|].
  injection Hpay as <-. discriminate Hex.
Defined.

(** Focus moves to the tracked widget 1 while widget 2 is current. *)
Lemma focus_change_witness :
  let s' := onFocusChanged (widgetSlots 1) (Some 1) demo_two_widgets in
  currentWidget demo_two_widgets = Some 2 ∧
  currentWidget s' = Some 1 ∧
  since demo_two_widgets s' =
    [EmitCurrentChanged (Some 1); HookOnCurrentChanged (Some 1);
     EmitWidgetCurrentChanged (Some 1)] ∧
  onFocusChanged (widgetSlots 1) None demo_two_widgets = demo_two_widgets.
Proof.
  destruct (focus_change_cases 0 (Some 1) demo_two_widgets)
    as (_&_&_&Hmove).
  destruct (focus_change_cases 0 None demo_two_widgets) as (Hlost&_).
  specialize (Hmove 1). evaluate_hyps Hmove.
  destruct Hmove as (Hc&_&_&Hlog).
  split; [reflexivity|]. split; [exact Hc|]. split; [exact Hlog|].
  exact (Hlost eq_refl).
Defined.

(** Widget 2 is added to a widget tracker whose current widget is 1:
    with nothing happening until [add] resumes it becomes current.
    Widget 1 is added to a fresh widget tracker and disposed before
    [add] resumes: [add] fulfils, and widget 1 is neither tracked nor
    current. *)
Lemma widget_add_witness :
  (let res := WidgetTracker.add 2 id demo_widget_tracker in
   WidgetTracker.currentWidget demo_widget_tracker = Some 1 ∧
   res.1 = Fulfilled () ∧
   WidgetTracker.currentWidget res.2 = Some 2 ∧
   WidgetTracker.has (Some 2) res.2 = true) ∧
  (let res :=
     WidgetTracker.add 1 demo_widget_disposed_meanwhile demo_widget_new in
   res.1 = Fulfilled () ∧
   WidgetTracker.has (Some 1) res.2 = false ∧
   WidgetTracker.currentWidget res.2 = None).
Proof.
  split.
  - destruct (widget_add_makes_current 2 id demo_widget_tracker)
      as (Hful&Hok&_).
    cbv zeta in Hful, Hok.
    assert (Hres : (WidgetTracker.add 2 id demo_widget_tracker).1 =
                   Fulfilled ()) by (apply Hful; reflexivity).
    destruct (Hok Hres) as [Hstill _].
    split; [reflexivity|]. split; [exact Hres|]. apply Hstill. reflexivity.
  - destruct (widget_add_makes_current 1 demo_widget_disposed_meanwhile
                demo_widget_new) as (Hful&Hok&_).
    cbv zeta in Hful, Hok.
    assert (Hres : (WidgetTracker.add 1 demo_widget_disposed_meanwhile
                      demo_widget_new).1 = Fulfilled ())
      by (apply Hful; reflexivity).
    destruct (Hok Hres) as [_ Hgone].
    split; [exact Hres|]. rewrite (Hgone eq_refl). split; reflexivity.
Defined.

(** Disposing that widget tracker. *)
Lemma widget_dispose_witness :
  let t' := WidgetTracker.dispose demo_widget_tracker in
  WidgetTracker.currentWidget t' = None ∧
  WidgetTracker.size t' = 0 ∧
  log (WidgetTracker._instanceTracker t') =
    log (WidgetTracker._instanceTracker demo_widget_tracker) ∧
  WidgetTracker.focusChanged (Some 1) t' = t'.
Proof.
  destruct (widget_dispose_spec demo_widget_tracker) as [_ Hfirst].
  evaluate_hyps Hfirst. destruct Hfirst as (_&Hc&Hsize&_&Hlog&_&Hfocus).
  split; [exact Hc|]. split; [exact Hsize|]. split; [exact Hlog|].
  exact (Hfocus (Some 1)).
Defined.

(** The injected object 1, after being made current: [save] does
    nothing and its disposal asks for no removal. *)
Lemma injected_never_persisted_witness :
  let s' := run noSlots [OpSetCurrent (Some 1); OpSave 1] demo_injected in
  injectedProperty_get 1 s' = true ∧
  save noSlots 1 s' = (Fulfilled (), s') ∧
  filter isCall (since s' (_onInstanceDisposed noSlots 1 s')) = [].
Proof.
  pose proof (injected_never_persisted 1 demo_injected
                [OpSetCurrent (Some 1); OpSave 1] eq_refl) as Hinj.
  cbv zeta in Hinj. destruct Hinj as (Hm&Hsave&Hdisp&_).
  split; [exact Hm|]. split; [exact Hsave|exact Hdisp].
Defined.

(** Widget 1 is added to a fresh widget tracker whose focus tracker
    reports it as focused on registration.  With nothing happening until
    [add] resumes, five effects follow; when the widget is disposed
    before [add] resumes, the two effects of the start are followed by
    nothing on its account. *)
Lemma widget_add_announces_witness :
  let s := WidgetTracker._instanceTracker demo_widget_new in
  (let res := WidgetTracker.add 1 id demo_widget_new in
   res.1 = Fulfilled () ∧
   since s (WidgetTracker._instanceTracker res.2) =
     [EmitAdded 1; EmitWidgetAdded 1; EmitCurrentChanged (Some 1);
      HookOnCurrentChanged (Some 1); EmitWidgetCurrentChanged (Some 1)]) ∧
  (let started := WidgetTracker.add_start 1 demo_widget_new in
   let res :=
     WidgetTracker.add 1 demo_widget_disposed_meanwhile demo_widget_new in
   res.1 = Fulfilled () ∧
   since s (WidgetTracker._instanceTracker started.2) =
     [EmitAdded 1; EmitWidgetAdded 1] ∧
   res.2 = demo_widget_disposed_meanwhile started.2).
Proof.
  set (s := WidgetTracker._instanceTracker demo_widget_new).
  assert (Hfocus : ∀ v,
    (focus_add 1 (world s)).2 = Some v → has v s = false).
  { intros v _. by destruct v. }
  assert (Hname : ∀ r, _restore s = Some r →
    truthy (name r (focus_add 1 (world s)).1 1) = false).
  { intros r [=]. }
  split.
  - pose proof (widget_add_announces 1 id demo_widget_new
                  eq_refl Hfocus eq_refl eq_refl eq_refl Hname) as Hadd.
    cbv zeta in Hadd. destruct Hadd as ((_&Hok)&_&Hresumed&_).
    split; [exact Hok|].
    destruct Hresumed as [_ Hlog]; [reflexivity|discriminate|reflexivity|].
    reflexivity.
  - pose proof (widget_add_announces 1 demo_widget_disposed_meanwhile
                  demo_widget_new
                  eq_refl Hfocus eq_refl eq_refl eq_refl Hname) as Hadd.
    cbv zeta in Hadd. destruct Hadd as ((_&Hok)&(_&_&_&_&Hlog)&_&Hgone).
    split; [exact Hok|]. split; [exact Hlog|]. apply Hgone. reflexivity.
Defined.
